(** * trezor_agent.trezor.client: identity labels, address derivation,
      SSH challenge blobs and signature post-processing

    A shallow embedding of [trezor_agent/trezor/client.py].  Python values
    are modelled as follows:

    - a [str] label is the [string] of its code points, for text whose
      code points lie below 256; [bytes] are lists of [byte]s; Python
      integers are [Z];
    - the package runs on Python 2.7 and on Python 3.4; where the two
      differ on such text (what [\w] matches), the model follows Python 3,
      where a label is a [str] and the pattern a [str] pattern; on ASCII
      labels the two agree;
    - dictionaries ([m.groupdict()], [kwargs], the parsed blob [res]) are
      [gmap]s keyed by strings;
    - exceptions are values of [exn], and a computation that may raise has
      type [result A];
    - the [io.BytesIO] cursor is the list of bytes not yet read, threaded
      through the reads by a small state-and-exception monad;
    - the modules [formats] and [util] and the device behind
      [self.client] are not part of the embedded file: what the code uses
      of them is a parameter of the development (section [Client]) or is
      modelled from the specification where it says enough. *)

From Stdlib Require Import ZArith Strings.Ascii Strings.Byte DecimalString.
From stdpp Require Import base option list strings gmap fin_maps.

Local Open Scope Z_scope.

(** ** Exceptions *)

Inductive exn : Type :=
| AssertionError        (* a failed [assert] *)
| AttributeError        (* attribute access on [None] *)
| KeyError              (* missing dictionary key *)
| StructError           (* [struct.pack]: value out of range *)
| UnicodeError          (* [str.encode('ascii')] on a non-ASCII character *)
| ShortRead             (* a bounded read met the end of the buffer *)
| External (code : Z).  (* raised by [formats] or by the device *)

Inductive result (A : Type) : Type :=
| OK (a : A)
| Raise (e : exn).
Arguments OK {A} a.
Arguments Raise {A} e.

Global Instance result_ret : MRet result := λ A a, OK a.
Global Instance result_bind : MBind result := λ A B f r,
  match r with
  | OK a => f a
  | Raise e => Raise e
  end.

Definition assert (b : bool) : result unit :=
  if b then OK tt else Raise AssertionError.

Abbreviation bytes := (list byte).

(** ** Strings *)

Module Str.

Fixpoint all (p : ascii → bool) (s : string) : bool :=
  match s with
  | EmptyString => true
  | String a s' => p a && all p s'
  end.

(** [s[:n]] *)
Fixpoint take (n : nat) (s : string) : string :=
  match n, s with
  | S n', String a s' => String a (take n' s')
  | _, _ => EmptyString
  end.

(** [s.startswith(p)], returning what follows the prefix *)
Fixpoint strip_prefix (p s : string) : option string :=
  match p, s with
  | EmptyString, _ => Some s
  | String a p', String b s' =>
      if Ascii.eqb a b then strip_prefix p' s' else None
  | String _ _, EmptyString => None
  end.

(** Python truthiness of a string *)
Definition truthy (s : string) : bool :=
  match s with EmptyString => false | String _ _ => true end.

Definition LF : ascii := ascii_of_nat 10.

(** The string ends with a line feed. *)
Fixpoint ends_with_LF (s : string) : bool :=
  match s with
  | EmptyString => false
  | String a EmptyString => Ascii.eqb a LF
  | String _ s' => ends_with_LF s'
  end.

(** [''.join(parts)] *)
Definition join (parts : list string) : string :=
  foldr String.app "" parts.

End Str.

(** ** A backtracking matcher for the fragment of [re] that the identity
       pattern uses *)

Module Re.

Inductive charset : Type :=
| Dot      (* [.]  : anything but a line feed *)
| Word.    (* [\w] : alphanumeric characters and the underscore *)

(** The ASCII digits and letters *)
Definition is_digit (a : ascii) : bool :=
  let n := nat_of_ascii a in (48 <=? n)%nat && (n <=? 57)%nat.
Definition is_alpha (a : ascii) : bool :=
  let n := nat_of_ascii a in
  ((65 <=? n)%nat && (n <=? 90)%nat) || ((97 <=? n)%nat && (n <=? 122)%nat).

(** The code points from 128 to 255 that are alphanumeric for a [str]
    pattern, which has no [re.ASCII] flag here: the letters (U+00AA,
    U+00B5, U+00BA, U+00C0 to U+00D6, U+00D8 to U+00F6, U+00F8 to
    U+00FF) and the numeric characters (superscripts U+00B2, U+00B3,
    U+00B9 and fractions U+00BC to U+00BE). *)
Definition is_latin1_alnum (a : ascii) : bool :=
  let n := nat_of_ascii a in
  (n =? 170)%nat || ((178 <=? n)%nat && (n <=? 179)%nat) || (n =? 181)%nat
  || ((185 <=? n)%nat && (n <=? 186)%nat)
  || ((188 <=? n)%nat && (n <=? 190)%nat)
  || ((192 <=? n)%nat && (n <=? 214)%nat)
  || ((216 <=? n)%nat && (n <=? 246)%nat)
  || (248 <=? n)%nat.

(** [\w] for a [str] pattern: what [str.isalnum] accepts, and the
    underscore.  (For a byte-string pattern, as under Python 2.7, only
    the ASCII ones.) *)
Definition is_alnum (a : ascii) : bool :=
  is_alpha a || is_digit a || is_latin1_alnum a.
Definition is_word (a : ascii) : bool := is_alnum a || Ascii.eqb a "_".

Definition mem (cs : charset) (a : ascii) : bool :=
  match cs with
  | Dot => negb (Ascii.eqb a Str.LF)
  | Word => is_word a
  end.

Inductive regex : Type :=
| Bos                                   (* [^] *)
| Eos                                   (* [$] *)
| Lit (l : string)                      (* literal text *)
| Star (cs : charset) (greedy : bool)   (* [c*] and [c*?] *)
| Group (name : string) (r : regex)     (* [(?P<name>r)] *)
| Opt (r : regex)                       (* [(?:r)?] *)
| Seq (r1 r2 : regex).

(** The match object: the text of every group that took part. *)
Abbreviation groups := (gmap string string).

Section Star.
Context {A : Type} (p : ascii → bool).

(** [c*]: take as many characters as possible, give back one at a
    time while the continuation fails. *)
Fixpoint star_greedy (rest : string) (k : string → option A) : option A :=
  match rest with
  | String a rest' =>
      if p a then
        match star_greedy rest' k with
        | Some m => Some m
        | None => k rest
        end
      else k rest
  | EmptyString => k rest
  end.

(** [c*?]: take as few characters as possible, one more each time the
    continuation fails. *)
Fixpoint star_lazy (rest : string) (k : string → option A) : option A :=
  match k rest with
  | Some m => Some m
  | None =>
      match rest with
      | String a rest' => if p a then star_lazy rest' k else None
      | EmptyString => None
      end
  end.
End Star.

(** The text between two cursor positions, the later one given by what
    is left of the subject there. *)
Definition consumed (before after : string) : string :=
  Str.take (String.length before - String.length after) before.

(** [$] without [re.MULTILINE]: at the end, or before a final line feed *)
Definition at_end (rest : string) : bool :=
  match rest with
  | EmptyString => true
  | String a EmptyString => Ascii.eqb a Str.LF
  | _ => false
  end.

Fixpoint run (r : regex) (subject rest : string) (caps : groups)
    (k : string → groups → option groups) : option groups :=
  match r with
  | Bos =>
      if (String.length rest =? String.length subject)%nat
      then k rest caps else None
  | Eos => if at_end rest then k rest caps else None
  | Lit l =>
      match Str.strip_prefix l rest with
      | Some rest' => k rest' caps
      | None => None
      end
  | Star cs true => star_greedy (mem cs) rest (λ rest', k rest' caps)
  | Star cs false => star_lazy (mem cs) rest (λ rest', k rest' caps)
  | Group name r' =>
      run r' subject rest caps
        (λ rest' caps', k rest' (<[name := consumed rest rest']> caps'))
  | Opt r' =>
      match run r' subject rest caps k with
      | Some m => Some m
      | None => k rest caps
      end
  | Seq r1 r2 =>
      run r1 subject rest caps
        (λ rest' caps', run r2 subject rest' caps' k)
  end.

(** [pattern.match(s)]: anchored at the start, free at the end *)
Definition re_match (r : regex) (s : string) : option groups :=
  run r s s ∅ (λ _ caps, Some caps).

Fixpoint group_names (r : regex) : list string :=
  match r with
  | Group name r' => name :: group_names r'
  | Opt r' => group_names r'
  | Seq r1 r2 => group_names r1 ++ group_names r2
  | _ => []
  end.

(** [m.groupdict()]: every named group, [None] for those that took no
    part in the match *)
Definition groupdict (r : regex) (m : groups) : gmap string (option string) :=
  list_to_map ((λ name, (name, m !! name)) <$> group_names r).

End Re.

Import Re.

(** ** Identities *)

(** The identity message of the device library
    ([factory.identity_type]): every text field is optional, an unset
    field reads as the empty string, [index] reads as 0 unless set.  The
    client never sets [index]; in the device library it is an unsigned
    32-bit field, and the statements below that depend on it assume
    that range. *)
Record IdentityType : Type := mkIdentity {
  proto : option string;
  user : option string;
  host : option string;
  port : option string;
  path : option string;
  index : Z;
}.

(** Reading a text field: [identity.proto] and the like *)
Definition getattr (field : option string) : string := default "" field.

(** The constructor call [identity_type] with [kwargs] as keyword
    arguments *)
Definition identity_type (kwargs : gmap string string) : IdentityType :=
  {| proto := kwargs !! "proto";
     user := kwargs !! "user";
     host := kwargs !! "host";
     port := kwargs !! "port";
     path := kwargs !! "path";
     index := 0 |}.

Definition _identity_regexp : regex :=
  Seq Bos
  (Seq (Opt (Seq (Group "proto" (Star Dot true)) (Lit "://")))
  (Seq (Opt (Seq (Group "user" (Star Dot true)) (Lit "@")))
  (Seq (Group "host" (Star Dot false))
  (Seq (Opt (Seq (Lit ":") (Group "port" (Star Word true))))
  (Seq (Opt (Group "path" (Seq (Lit "/") (Star Dot true))))
       Eos))))).

(** [{k: v for k, v in result.items() if v}] *)
Definition truthy_items (d : gmap string (option string)) : gmap string string :=
  omap (λ v, match v with
             | Some s => if Str.truthy s then Some s else None
             | None => None
             end) d.

Definition string_to_identity (s : string) : result IdentityType :=
  match re_match _identity_regexp s with
  | None => Raise AttributeError   (* [m] is [None] *)
  | Some m =>
      let result := groupdict _identity_regexp m in
      let kwargs := truthy_items result in
      OK (identity_type kwargs)
  end.

Definition identity_to_string (identity : IdentityType) : string :=
  let result := [] in
  let result :=
    if Str.truthy (getattr (proto identity))
    then result ++ [getattr (proto identity) +:+ "://"] else result in
  let result :=
    if Str.truthy (getattr (user identity))
    then result ++ [getattr (user identity) +:+ "@"] else result in
  let result := result ++ [getattr (host identity)] in
  let result :=
    if Str.truthy (getattr (port identity))
    then result ++ [":" +:+ getattr (port identity)] else result in
  let result :=
    if Str.truthy (getattr (path identity))
    then result ++ [getattr (path identity)] else result in
  Str.join result.

Definition set_proto (v : string) (identity : IdentityType) : IdentityType :=
  {| proto := Some v;
     user := user identity;
     host := host identity;
     port := port identity;
     path := path identity;
     index := index identity |}.

(** [Client.get_identity] *)
Definition get_identity (label : string) : result IdentityType :=
  identity ← string_to_identity label;
  mret (set_proto "ssh" identity).

(** ** Bytes and [struct] *)

Global Instance byte_eq_dec : EqDecision byte := Byte.byte_eq_dec.

Definition byte_to_Z (b : byte) : Z := Z.of_N (Byte.to_N b).

(** The byte whose value is the low eight bits of [z] *)
Definition byte_of_Z (z : Z) : byte :=
  default x00 (Byte.of_N (Z.to_N (Z.land z 255))).

(** [struct.pack('<L', n)] *)
Definition struct_pack_L (n : Z) : result bytes :=
  if (0 <=? n) && (n <? 2 ^ 32) then
    OK [byte_of_Z n; byte_of_Z (Z.shiftr n 8);
        byte_of_Z (Z.shiftr n 16); byte_of_Z (Z.shiftr n 24)]
  else Raise StructError.

(** [s.encode('ascii')] *)
Definition is_ascii (a : ascii) : bool := (nat_of_ascii a <? 128)%nat.

Fixpoint encode_ascii (s : string) : result bytes :=
  match s with
  | EmptyString => OK []
  | String a s' =>
      if is_ascii a
      then (bs ← encode_ascii s'; mret (byte_of_ascii a :: bs))
      else Raise UnicodeError
  end.

(** ** The [io.BytesIO] cursor *)

Definition io (A : Type) : Type := bytes → result (A * bytes).

Global Instance io_ret : MRet io := λ A a buf, OK (a, buf).
Global Instance io_bind : MBind io := λ A B f m buf,
  match m buf with
  | OK (a, buf') => f a buf'
  | Raise e => Raise e
  end.

(** A computation that does not touch the cursor *)
Definition lift {A} (r : result A) : io A := λ buf,
  match r with
  | OK a => OK (a, buf)
  | Raise e => Raise e
  end.

(** [i.read(n)]: up to [n] bytes, fewer at the end of the buffer *)
Definition read (n : nat) : io bytes := λ buf, OK (take n buf, drop n buf).

(** [i.read()]: whatever is left *)
Definition read_all : io bytes := λ buf, OK (buf, []).

(** ** [util]: bounded reads *)

Module Util.

(** Modelled from the spec: [util.recv] is not in the embedded files.
    The specification asks for a cursor with explicit bounds checks at
    every read: a read of [size] bytes either delivers exactly that many
    or fails on short input. *)
Definition recv (size : nat) : io bytes := λ buf,
  if (size <=? length buf)%nat
  then OK (take size buf, drop size buf)
  else Raise ShortRead.

(** A little-endian 32-bit word ([<L]) *)
Definition le32 (b0 b1 b2 b3 : byte) : Z :=
  byte_to_Z b0 + 2 ^ 8 * byte_to_Z b1
  + 2 ^ 16 * byte_to_Z b2 + 2 ^ 24 * byte_to_Z b3.

(** [struct.unpack('<L...L', data)] on a whole number of words *)
Fixpoint unpack_le32 (data : bytes) : list Z :=
  match data with
  | b0 :: b1 :: b2 :: b3 :: data' => le32 b0 b1 b2 b3 :: unpack_le32 data'
  | _ => []
  end.

(** Modelled from the spec: [util.recv(s, '<LLLL')], the digest
    interpreted as [count] little-endian 32-bit words. *)
Definition recv_le32 (count : nat) : io (list Z) :=
  data ← recv (4 * count); mret (unpack_le32 data).

(** Modelled from the spec: [util.read_frame] is not in the embedded
    files.  Each variable-length field is preceded by its length, a
    fixed-width integer, and exactly that many bytes are consumed.  The
    specification gives neither the width of the length field nor its
    byte order: [width] and [size_of] stand for them. *)
Definition read_frame (width : nat) (size_of : bytes → nat) : io bytes :=
  header ← recv width; recv (size_of header).

End Util.

(** ** The client *)

(** What the device answers to [sign_identity] *)
Record SignedIdentity : Type := mkSigned {
  public_key : bytes;
  signature : bytes;
}.

Section Client.

(** [formats]: the digest, and the public-key codec *)
Variable hashfunc : bytes → bytes.
Variable VerifyingKey : Type.
Variable decompress_pubkey : bytes → string → result VerifyingKey.
Variable serialize_verifying_key : VerifyingKey → result (bytes * bytes).

(** Modelled from the spec: what [formats.parse_pubkey] returns is not in
    the embedded files.  It is the public-key record of the
    specification: curve name, verifying-key point, key type, blob and
    fingerprint; the client reads its ['blob'] and its
    ['fingerprint']. *)
Record PublicKeyRecord : Type := mkPublicKey {
  pk_curve : string;
  pk_point : VerifyingKey;
  pk_type : bytes;
  pk_blob : bytes;
  pk_fingerprint : string;
}.
Variable parse_pubkey : bytes → result PublicKeyRecord.
Variable export_public_key : VerifyingKey → string → result string.

(** [util.read_frame] on the cursor *)
Variable read_frame : io bytes.

(** The device: [self.client], and [self.curve] *)
Variable curve : string.
Variable get_public_node : list Z → string → result bytes.
Variable sign_identity :
  IdentityType → bytes → string → string → result SignedIdentity.

Definition hardened : Z := 0x80000000.

Definition _get_address (identity : IdentityType) : result (list Z) :=
  index ← struct_pack_L (index identity);
  text ← encode_ascii (identity_to_string identity);
  let addr := index ++ text in
  let digest := hashfunc addr in
  '(words, _) ← Util.recv_le32 4 digest;
  let address_n := [13] ++ words in
  mret ((λ value, Z.lor hardened value) <$> address_n).

(** The values stored in the dictionary of a parsed blob *)
Inductive value : Type :=
| VBytes (b : bytes)
| VPublicKey (k : PublicKeyRecord).

Definition getitem (d : gmap string value) (key : string) : result value :=
  match d !! key with
  | Some v => OK v
  | None => Raise KeyError
  end.

(** [b == v] for a byte string [b] *)
Definition eq_bytes (b : bytes) (v : value) : bool :=
  match v with
  | VBytes b' => bool_decide (b = b')
  | VPublicKey _ => false
  end.

(** [b == v['blob']] *)
Definition eq_blob (b : bytes) (v : value) : bool :=
  match v with
  | VPublicKey k => bool_decide (b = pk_blob k)
  | VBytes _ => false
  end.

Definition _parse_ssh_blob (data : bytes) : result (gmap string value) :=
  let res : gmap string value := ∅ in
  match data with
  | [] => OK res
  | _ :: _ =>
      '(res, _) ← (
        nonce ← read_frame;
        let res := <["nonce" := VBytes nonce]> res in
        _ ← read 1;
        user ← read_frame;
        let res := <["user" := VBytes user]> res in
        conn ← read_frame;
        let res := <["conn" := VBytes conn]> res in
        auth ← read_frame;
        let res := <["auth" := VBytes auth]> res in
        _ ← read 1;
        key_type ← read_frame;
        let res := <["key_type" := VBytes key_type]> res in
        public_key ← read_frame;
        parsed ← lift (parse_pubkey public_key);
        let res := <["public_key" := VPublicKey parsed]> res in
        rest ← read_all;
        _ ← lift (assert (bool_decide (rest = [])));
        mret res) data;
      OK res
  end.

Definition get_public_key (label : string) : result string :=
  identity ← get_identity label;
  let label := identity_to_string identity in
  addr ← _get_address identity;
  pubkey ← get_public_node addr curve;
  vk ← decompress_pubkey pubkey curve;
  export_public_key vk label.

Definition sign_ssh_challenge (label : string) (blob : bytes) : result bytes :=
  identity ← get_identity label;
  msg ← _parse_ssh_blob blob;
  _ ← getitem msg "user";
  let visual := getattr (path identity) in
  result ← sign_identity identity blob visual curve;
  verifying_key ← decompress_pubkey (public_key result) curve;
  '(key_type, blob) ← serialize_verifying_key verifying_key;
  expected ← getitem msg "public_key";
  _ ← assert (eq_blob blob expected);
  expected ← getitem msg "key_type";
  _ ← assert (eq_bytes key_type expected);
  _ ← assert (bool_decide (length (signature result) = 65%nat));
  _ ← assert (bool_decide (take 1 (signature result) = [x00]));
  mret (drop 1 (signature result)).

End Client.

(** * Definitions for the statements and the proofs *)

(** ** A declarative reading of the patterns *)

Module Matching.
Import Str.

(** [matches r w rest c c']: the pattern [r] matches the text [w] when
    [rest] follows it, and turns the captures [c] into [c']. *)
Inductive matches : regex → string → string → groups → groups → Prop :=
| m_bos rest c : matches Bos "" rest c c
| m_eos rest c : at_end rest = true → matches Eos "" rest c c
| m_lit l rest c : matches (Lit l) l rest c c
| m_star cs g w rest c :
    all (mem cs) w = true → matches (Star cs g) w rest c c
| m_group name r w rest c c' :
    matches r w rest c c' →
    matches (Group name r) w rest c (<[name := w]> c')
| m_opt_some r w rest c c' :
    matches r w rest c c' → matches (Opt r) w rest c c'
| m_opt_none r rest c : matches (Opt r) "" rest c c
| m_seq r1 r2 w1 w2 rest c c1 c2 :
    matches r1 w1 (w2 +:+ rest) c c1 →
    matches r2 w2 rest c1 c2 →
    matches (Seq r1 r2) (w1 +:+ w2) rest c c2.

(** A pattern without [^] *)
Fixpoint bos_free (r : regex) : bool :=
  match r with
  | Bos => false
  | Group _ r' | Opt r' => bos_free r'
  | Seq r1 r2 => bos_free r1 && bos_free r2
  | _ => true
  end.

(** A pattern whose literals hold no line feed *)
Fixpoint lf_free (r : regex) : bool :=
  match r with
  | Lit l => all (mem Dot) l
  | Group _ r' | Opt r' => lf_free r'
  | Seq r1 r2 => lf_free r1 && lf_free r2
  | _ => true
  end.

(** Two outcomes of a match: both fail, or both succeed with related
    groups. *)
Definition orel (R : relation groups) (o1 o2 : option groups) : Prop :=
  match o1, o2 with
  | Some m1, Some m2 => R m1 m2
  | None, None => True
  | _, _ => False
  end.

(** Groups that agree everywhere but on the group [name] *)
Definition same_but (name : string) (c1 c2 : groups) : Prop :=
  delete name c1 = delete name c2.

End Matching.

(** ** The parts of a label *)

Module Label.
Import Str.

(** The label text made of the five groups, [None] for a group that
    takes no part. *)
Definition label_text (p u : option string) (h : string)
    (po pa : option string) : string :=
  from_option (λ x, x +:+ "://") "" p +:+
  (from_option (λ x, x +:+ "@") "" u +:+
  (h +:+
  (from_option (λ x, ":" +:+ x) "" po +:+
  default "" pa))).

Definition opt_insert (name : string) (o : option string) (c : groups) : groups :=
  match o with
  | Some x => <[name := x]> c
  | None => c
  end.

Definition label_groups (p u : option string) (h : string)
    (po pa : option string) : groups :=
  opt_insert "path" pa (opt_insert "port" po (<["host" := h]>
    (opt_insert "user" u (opt_insert "proto" p ∅)))).

Definition opt_all (P : string → Prop) (o : option string) : Prop :=
  ∀ x, o = Some x → P x.

(** The shape of the groups of a match: no line feed in [proto], [user]
    and [host], word characters in [port], a [path] that starts with a
    slash and holds no line feed. *)
Definition well_shaped (p u : option string) (h : string)
    (po pa : option string) : Prop :=
  opt_all (λ x, all (mem Dot) x = true) p
  ∧ opt_all (λ x, all (mem Dot) x = true) u
  ∧ all (mem Dot) h = true
  ∧ opt_all (λ x, all (mem Word) x = true) po
  ∧ opt_all (λ x, ∃ y, x = "/" +:+ y ∧ all (mem Dot) y = true) pa.

(** What the dictionary comprehension keeps of a group *)
Definition keep_truthy (o : option string) : option string :=
  match o with
  | Some x => if truthy x then Some x else None
  | None => None
  end.

Definition identity_of_parts (p u : option string) (h : string)
    (po pa : option string) : IdentityType :=
  {| proto := keep_truthy p;
     user := keep_truthy u;
     host := keep_truthy (Some h);
     port := keep_truthy po;
     path := keep_truthy pa;
     index := 0 |}.

(** The line feed as a string *)
Abbreviation lf := (String LF "").

(** A single line: no line feed, except possibly as the last character *)
Fixpoint is_line (s : string) : bool :=
  match s with
  | EmptyString => true
  | String a s' =>
      if Ascii.eqb a LF
      then match s' with EmptyString => true | _ => false end
      else is_line s'
  end.

(** The pattern after the [user] group *)
Definition identity_host : regex :=
  Seq (Group "host" (Star Dot false))
  (Seq (Opt (Seq (Lit ":") (Group "port" (Star Word true))))
  (Seq (Opt (Group "path" (Seq (Lit "/") (Star Dot true))))
       Eos)).

(** The pattern after the [proto] group *)
Definition identity_tail : regex :=
  Seq (Opt (Seq (Group "user" (Star Dot true)) (Lit "@"))) identity_host.

(** The continuation that ends a match *)
Definition accept : string → groups → option groups := λ _ caps, Some caps.

(** What follows a candidate [proto]: the separator, then the tail *)
Definition after_proto (subject rest : string) : option groups :=
  match strip_prefix "://" rest with
  | Some rest' =>
      run identity_tail subject rest' (<["proto" := consumed subject rest]> ∅) accept
  | None => None
  end.

(** What follows a candidate [user] that starts at [start]: the
    separator, then the rest of the pattern *)
Definition after_user (subject start : string) (c : groups) (rest : string) :
    option groups :=
  match strip_prefix "@" rest with
  | Some rest' =>
      run identity_host subject rest' (<["user" := consumed start rest]> c) accept
  | None => None
  end.

(** A label with a protocol prefix, or with none *)
Inductive proto_prefix : string → Prop :=
| no_proto : proto_prefix ""
| with_proto p : proto_prefix (p +:+ "://").

End Label.

(** ** The seed and the words of the digest *)

Module Encoding.

(** The 4-byte little-endian encoding of [n] *)
Definition le_bytes32 (n : Z) : bytes :=
  (λ i, byte_of_Z (n / 256 ^ i)) <$> [0; 1; 2; 3].

(** The ASCII bytes of a string *)
Definition ascii_bytes (s : string) : bytes :=
  byte_of_ascii <$> String.list_ascii_of_string s.

(** The [i]-th little-endian 32-bit word of a digest *)
Definition digest_word (digest : bytes) (i : nat) : Z :=
  let b j := byte_to_Z (default x00 (digest !! (4 * i + j)%nat)) in
  b 0%nat + 256 * b 1%nat + 256 ^ 2 * b 2%nat + 256 ^ 3 * b 3%nat.

(** A frame: a header of [width] bytes that gives the length of the
    payload after it *)
Definition framed (width : nat) (size_of : bytes → nat)
    (header payload : bytes) : Prop :=
  length header = width ∧ size_of header = length payload.

End Encoding.

(** ** A small instance of the parameters, to run the client on *)

Module Toy.

Definition hashfunc (data : bytes) : bytes :=
  take 32 (reverse data ++ replicate 32 x5c).

Definition VerifyingKey : Type := bytes.

Definition decompress_pubkey (pubkey : bytes) (curve : string) :
    result VerifyingKey := OK pubkey.

Definition ssh_ed25519 : bytes := String.list_byte_of_string "ssh-ed25519".

Definition serialize_verifying_key (vk : VerifyingKey) : result (bytes * bytes) :=
  OK (ssh_ed25519, vk).

Definition parse_pubkey (blob : bytes) : result (PublicKeyRecord VerifyingKey) :=
  OK (mkPublicKey VerifyingKey "ed25519" blob ssh_ed25519 blob "").

(** A device that answers every request with the same key and signature *)
Definition sign_identity (answer : SignedIdentity) (identity : IdentityType)
    (challenge_hidden : bytes) (challenge_visual curve : string) :
    result SignedIdentity := OK answer.

(** A frame of the SSH wire format: the length on four bytes, most
    significant first, then the payload *)
Definition be_size (header : bytes) : nat :=
  Z.to_nat (foldl (λ acc b, 256 * acc + byte_to_Z b) 0 header).
Definition be_header (n : nat) : bytes :=
  (λ i, byte_of_Z (Z.shiftr (Z.of_nat n) (8 * i))) <$> [3; 2; 1; 0].
Definition frame (payload : bytes) : bytes :=
  be_header (length payload) ++ payload.
Definition read_frame : io bytes := Util.read_frame 4 be_size.

Definition key : bytes := replicate 32 x07.

Definition challenge : bytes :=
  frame [x01; x02] ++ [x00]
  ++ frame (String.list_byte_of_string "alice")
  ++ frame (String.list_byte_of_string "ssh-connection")
  ++ frame (String.list_byte_of_string "publickey") ++ [x00]
  ++ frame ssh_ed25519
  ++ frame key.

Definition label : string := "ssh://alice@git.example.com:22/repo".

(** Answers of the device *)
Definition well_formed : bytes := x00 :: replicate 64 x01.
Definition bad_prefix : bytes := x01 :: replicate 64 x01.
Definition other_key : bytes := replicate 32 x08.

Abbreviation toy_sign answer :=
  (sign_ssh_challenge VerifyingKey decompress_pubkey serialize_verifying_key
     parse_pubkey read_frame "ed25519" (sign_identity answer) label challenge).

End Toy.

(** ** The firmware version gate of [Client.__init__] *)

Module Firmware.

(** [self.client.features], as far as [__init__] reads it *)
Record Features : Type := mkFeatures {
  device_id : string;
  device_label : string;
  vendor : string;
  major_version : Z;
  minor_version : Z;
  patch_version : Z;
  revision : bytes;
}.

(** What [__init__] does: it returns, or raises [ValueError] with a
    message. *)
Inductive outcome : Type :=
| Connected
| ValueError (message : string).

(** [a < b] on lists of integers: the first pair of elements that differ
    decides; a proper prefix is smaller. *)
Fixpoint list_lt (a b : list Z) : bool :=
  match a, b with
  | [], [] => false
  | [], _ :: _ => true
  | _ :: _, [] => false
  | x :: a', y :: b' => if x =? y then list_lt a' b' else x <? y
  end.

(** [str(v)] *)
Definition str (v : Z) : string := NilZero.string_of_int (Z.to_int v).

(** [fmt.format(arg)] for a format with one field [{}] *)
Fixpoint format (fmt arg : string) : string :=
  match fmt with
  | String "{" (String "}" rest) => arg +:+ rest
  | String a rest => String a (format rest arg)
  | EmptyString => EmptyString
  end.

Definition MIN_VERSION : list Z := [1; 3; 4].

(** [Client.__init__], after [self.factory.client()] has returned the
    device with the features [f]; the calls to [log.debug] have no
    effect here. *)
Definition __init__ (f : Features) : outcome :=
  let version := [major_version f; minor_version f; patch_version f] in
  let version_str := String.concat "." (str <$> version) in
  if list_lt version MIN_VERSION then
    let fmt := "Please upgrade your TREZOR to v{}+ firmware" in
    let version_str := String.concat "." (str <$> MIN_VERSION) in
    ValueError (format fmt version_str)
  else Connected.

End Firmware.

(** ** Identities that are their own parse *)

Module Canonical.
Import Str.

(** No occurrence of [://] *)
Fixpoint sep_free (s : string) : bool :=
  match strip_prefix "://" s with
  | Some _ => false
  | None =>
      match s with
      | EmptyString => true
      | String _ s' => sep_free s'
      end
  end.

(** No occurrence of the character [c] *)
Definition lacks (c : ascii) (s : string) : bool :=
  all (λ a, negb (Ascii.eqb a c)) s.

(** A character of a plain host name: no line feed, [:], [/] or [@] *)
Definition host_char (a : ascii) : bool :=
  negb (Ascii.eqb a LF) && negb (Ascii.eqb a ":")
  && negb (Ascii.eqb a "/") && negb (Ascii.eqb a "@").

Definition field_ok (ok : string → bool) (field : option string) : bool :=
  match field with
  | Some x => truthy x && ok x
  | None => true
  end.

(** An ASCII word character: a letter, a digit or the underscore *)
Definition is_ascii_word (a : ascii) : bool :=
  is_alpha a || is_digit a || Ascii.eqb a "_".

(** An identity whose fields can be told apart in its canonical string:
    no field is empty or holds a line feed; the user holds no slash; the
    host is a plain name; the port is made of ASCII word characters; the
    path starts with a slash and holds no [@] and no colon; the index is
    0. *)
Definition plain (identity : IdentityType) : bool :=
  field_ok (all (mem Dot)) (proto identity)
  && field_ok (λ u, all (mem Dot) u && lacks "/" u) (user identity)
  && field_ok (all host_char) (host identity)
  && field_ok (all is_ascii_word) (port identity)
  && field_ok (λ p, match p with
                    | String "/" y => all (mem Dot) y && lacks "@" y && lacks ":" y
                    | _ => false
                    end) (path identity)
  && (index identity =? 0).

End Canonical.

(** ** The layout of a challenge blob *)

Module Layout.

(** The reserved bytes and the six frames, header and payload, in the
    order in which [_parse_ssh_blob] reads them *)
Record blob : Type := mkBlob {
  nonce : bytes * bytes;
  reserved1 : byte;
  user : bytes * bytes;
  conn : bytes * bytes;
  auth : bytes * bytes;
  reserved2 : byte;
  key_type : bytes * bytes;
  public_key : bytes * bytes;
}.

Definition frame_bytes (f : bytes * bytes) : bytes := f.1 ++ f.2.

Definition encode (b : blob) : bytes :=
  frame_bytes (nonce b) ++ [reserved1 b]
  ++ frame_bytes (user b) ++ frame_bytes (conn b) ++ frame_bytes (auth b)
  ++ [reserved2 b]
  ++ frame_bytes (key_type b) ++ frame_bytes (public_key b).

Definition frames (b : blob) : list (bytes * bytes) :=
  [nonce b; user b; conn b; auth b; key_type b; public_key b].

(** The dictionary that holds the payloads of [b] *)
Definition fields {VerifyingKey : Type} (b : blob)
    (parsed : PublicKeyRecord VerifyingKey) : gmap string (value VerifyingKey) :=
  <["public_key" := VPublicKey VerifyingKey parsed]>
    (<["key_type" := VBytes VerifyingKey (key_type b).2]>
    (<["auth" := VBytes VerifyingKey (auth b).2]>
    (<["conn" := VBytes VerifyingKey (conn b).2]>
    (<["user" := VBytes VerifyingKey (user b).2]>
    (<["nonce" := VBytes VerifyingKey (nonce b).2]> ∅))))).

End Layout.

(** ** The error kinds of the specification *)

Module SpecErrors.

(** The specification (section 7) names three kinds of error and asks
    that they surface as distinct, inspectable values.  The code has no
    such type: this one follows the words of the specification, to
    compare what the code raises with. *)
Inductive kind : Type :=
| FormatError
| ProtocolMismatchError
| UnsupportedCurveError.

(** A way for a caller to read the kind of a failure off what
    [sign_ssh_challenge] returned or raised *)
Definition reading : Type := result bytes → kind.

End SpecErrors.

(** ** A device and a challenge to run the client on *)

Module ToyDevice.

Definition get_public_node (address_n : list Z) (curve : string) : result bytes :=
  OK Toy.key.

Definition export_public_key (vk : Toy.VerifyingKey) (label : string) :
    result string :=
  OK ("ssh-ed25519 BwcHBw== " +:+ label).

(** [Toy.challenge], frame by frame *)
Definition header_and (payload : bytes) : bytes * bytes :=
  (Toy.be_header (length payload), payload).

Definition challenge : Layout.blob :=
  Layout.mkBlob
    (header_and [x01; x02]) x00
    (header_and (String.list_byte_of_string "alice"))
    (header_and (String.list_byte_of_string "ssh-connection"))
    (header_and (String.list_byte_of_string "publickey")) x00
    (header_and Toy.ssh_ed25519)
    (header_and Toy.key).

End ToyDevice.

(** * Properties *)

(** ** Strings *)

Module StrFacts.
Import Str.

Lemma app_nil_l s : "" +:+ s = s.
Proof. reflexivity. Qed.

Lemma app_cons a s t : String a s +:+ t = String a (s +:+ t).
Proof. reflexivity. Qed.

Lemma app_nil_r s : s +:+ "" = s.
Proof. induction s as [|a s IH]; [done|]. by rewrite app_cons, IH. Qed.

Lemma app_assoc s t u : (s +:+ t) +:+ u = s +:+ (t +:+ u).
Proof. induction s as [|a s IH]; [done|]. by rewrite !app_cons, IH. Qed.

Lemma length_app s t :
  String.length (s +:+ t) = (String.length s + String.length t)%nat.
Proof. induction s as [|a s IH]; [done|]. rewrite app_cons. simpl. by rewrite IH. Qed.

Lemma take_app_length w s : take (String.length w) (w +:+ s) = w.
Proof. induction w as [|a w IH]; [by destruct s|]. rewrite app_cons. simpl. by rewrite IH. Qed.

Lemma all_app p s t : all p (s +:+ t) = all p s && all p t.
Proof.
  induction s as [|a s IH]; [done|].
  rewrite app_cons. simpl. rewrite IH. by destruct (p a).
Qed.

Lemma strip_prefix_Some p s s' : strip_prefix p s = Some s' ↔ s = p +:+ s'.
Proof.
  revert s. induction p as [|a p IH]; intros s; simpl.
  - rewrite app_nil_l. split; congruence.
  - destruct s as [|b s]; [by rewrite app_cons|].
    rewrite app_cons. destruct (Ascii.eqb_spec a b) as [->|Hne].
    + rewrite IH. split; congruence.
    + split; congruence.
Qed.

Lemma truthy_false s : truthy s = false ↔ s = "".
Proof. by destruct s. Qed.

Lemma truthy_true s : truthy s = true ↔ s ≠ "".
Proof. by destruct s. Qed.

Lemma ends_with_LF_app s : ends_with_LF (s +:+ String LF "") = true.
Proof.
  induction s as [|a s IH]; [done|].
  rewrite app_cons. simpl. rewrite IH.
  by destruct (s +:+ String LF "") eqn:E; [destruct s|].
Qed.

End StrFacts.

(** ** The matcher is sound for a declarative reading of the pattern *)

Module ReFacts.
Import Str StrFacts Matching.

Lemma consumed_app w s : consumed (w +:+ s) s = w.
Proof.
  unfold consumed. rewrite length_app.
  replace (String.length w + String.length s - String.length s)%nat
    with (String.length w) by lia.
  apply take_app_length.
Qed.

Section Star.
Context {A : Type} (p : ascii → bool).

Lemma star_greedy_sound s (k : string → option A) m :
  star_greedy p s k = Some m →
  ∃ w rest, s = w +:+ rest ∧ all p w = true ∧ k rest = Some m.
Proof.
  induction s as [|a s IH]; simpl; intros H.
  - by exists "", "".
  - destruct (p a) eqn:Ha;
      [destruct (star_greedy p s k) as [m'|] eqn:E|].
    + injection H as ->. destruct (IH eq_refl) as (w & rest & -> & Hw & Hk).
      exists (String a w), rest. simpl. by rewrite Ha, Hw.
    + by exists "", (String a s).
    + by exists "", (String a s).
Qed.

Lemma star_lazy_sound s (k : string → option A) m :
  star_lazy p s k = Some m →
  ∃ w rest, s = w +:+ rest ∧ all p w = true ∧ k rest = Some m.
Proof.
  induction s as [|a s IH]; simpl; intros H.
  - destruct (k "") eqn:E; [injection H as ->|done]. by exists "", "".
  - destruct (k (String a s)) eqn:E.
    + injection H as ->. by exists "", (String a s).
    + destruct (p a) eqn:Ha; [|done].
      destruct (IH H) as (w & rest & -> & Hw & Hk).
      exists (String a w), rest. simpl. by rewrite Ha, Hw.
Qed.
End Star.

Lemma run_sound r subject s c k m :
  run r subject s c k = Some m →
  ∃ w rest c', s = w +:+ rest ∧ matches r w rest c c' ∧ k rest c' = Some m.
Proof.
  revert s c k. induction r as [| |l|cs g|name r IH|r IH|r1 IH1 r2 IH2];
    intros s c k; simpl; intros H.
  - destruct (_ =? _)%nat; [|done]. exists "", s, c. eauto using matches.
  - destruct (at_end s) eqn:E; [|done]. exists "", s, c. eauto using matches.
  - destruct (strip_prefix l s) as [s'|] eqn:E; [|done].
    apply strip_prefix_Some in E as ->. exists l, s', c. eauto using matches.
  - destruct g.
    + apply star_greedy_sound in H as (w & rest & -> & Hw & Hk).
      exists w, rest, c. eauto using matches.
    + apply star_lazy_sound in H as (w & rest & -> & Hw & Hk).
      exists w, rest, c. eauto using matches.
  - apply IH in H as (w & rest & c' & -> & Hm & Hk).
    rewrite consumed_app in Hk. exists w, rest, (<[name := w]> c').
    eauto using matches.
  - destruct (run r subject s c k) as [m'|] eqn:E.
    + injection H as ->. apply IH in E as (w & rest & c' & -> & Hm & Hk).
      exists w, rest, c'. eauto using matches.
    + exists "", s, c. eauto using matches.
  - apply IH1 in H as (w1 & rest1 & c1 & -> & Hm1 & Hk).
    apply IH2 in Hk as (w2 & rest & c2 & -> & Hm2 & Hk).
    exists (w1 +:+ w2), rest, c2. rewrite app_assoc. eauto using matches.
Qed.

Lemma re_match_sound r s m :
  re_match r s = Some m → ∃ w rest, s = w +:+ rest ∧ matches r w rest ∅ m.
Proof.
  intros H. apply run_sound in H as (w & rest & c' & -> & Hm & [= ->]).
  eauto.
Qed.

End ReFacts.

(** ** What a match of the identity pattern looks like *)

Module IdentityFacts.
Import Str StrFacts Matching Label ReFacts.

Ltac invert H := inversion H; subst; clear H.

Ltac invert_spine :=
  repeat match goal with
  | H : matches (Seq _ _) _ _ _ _ |- _ => invert H
  end.

(** [(?:(?P<name>c* )l)?] *)
Lemma opt_group_lit_inv name cs g l w rest c c' :
  matches (Opt (Seq (Group name (Star cs g)) (Lit l))) w rest c c' →
  ∃ o, w = from_option (λ x, x +:+ l) "" o
       ∧ c' = opt_insert name o c
       ∧ opt_all (λ x, all (mem cs) x = true) o.
Proof.
  intros H. invert H.
  - invert_spine.
    match goal with H : matches (Group _ _) _ _ _ _ |- _ => invert H end.
    match goal with H : matches (Star _ _) _ _ _ _ |- _ => invert H end.
    match goal with H : matches (Lit _) _ _ _ _ |- _ => invert H end.
    eexists (Some _). repeat split. by intros ? [= <-].
  - by exists None.
Qed.

(** [(?:l(?P<name>c* ))?] *)
Lemma opt_lit_group_inv name cs g l w rest c c' :
  matches (Opt (Seq (Lit l) (Group name (Star cs g)))) w rest c c' →
  ∃ o, w = from_option (λ x, l +:+ x) "" o
       ∧ c' = opt_insert name o c
       ∧ opt_all (λ x, all (mem cs) x = true) o.
Proof.
  intros H. invert H.
  - invert_spine.
    match goal with H : matches (Group _ _) _ _ _ _ |- _ => invert H end.
    match goal with H : matches (Star _ _) _ _ _ _ |- _ => invert H end.
    match goal with H : matches (Lit _) _ _ _ _ |- _ => invert H end.
    eexists (Some _). repeat split. by intros ? [= <-].
  - by exists None.
Qed.

(** [(?P<name>lc* )?] *)
Lemma opt_group_inv name cs g l w rest c c' :
  matches (Opt (Group name (Seq (Lit l) (Star cs g)))) w rest c c' →
  ∃ o, w = default "" o
       ∧ c' = opt_insert name o c
       ∧ opt_all (λ x, ∃ y, x = l +:+ y ∧ all (mem cs) y = true) o.
Proof.
  intros H. invert H.
  - match goal with H : matches (Group _ _) _ _ _ _ |- _ => invert H end.
    invert_spine.
    match goal with H : matches (Star _ _) _ _ _ _ |- _ => invert H end.
    match goal with H : matches (Lit _) _ _ _ _ |- _ => invert H end.
    eexists (Some _). repeat split. intros ? [= <-]. eauto.
  - by exists None.
Qed.

Lemma identity_match_inv s m :
  re_match _identity_regexp s = Some m →
  ∃ p u h po pa tail,
    s = label_text p u h po pa +:+ tail
    ∧ at_end tail = true
    ∧ m = label_groups p u h po pa
    ∧ well_shaped p u h po pa.
Proof.
  intros H. apply re_match_sound in H as (w & tail & -> & H).
  unfold _identity_regexp in H. invert_spine.
  repeat match goal with
  | H : matches Bos _ _ _ _ |- _ => invert H
  | H : matches Eos _ _ _ _ |- _ => invert H
  | H : matches (Group _ (Star _ _)) _ _ _ _ |- _ => invert H
  | H : matches (Star _ _) _ _ _ _ |- _ => invert H
  | H : matches (Opt (Seq (Group _ _) (Lit _))) _ _ _ _ |- _ =>
      apply opt_group_lit_inv in H as (? & -> & -> & ?)
  | H : matches (Opt (Seq (Lit _) (Group _ _))) _ _ _ _ |- _ =>
      apply opt_lit_group_inv in H as (? & -> & -> & ?)
  | H : matches (Opt (Group _ _)) _ _ _ _ |- _ =>
      apply opt_group_inv in H as (? & -> & -> & ?)
  end.
  do 6 eexists. split; [|split; [eassumption|split; [reflexivity|]]].
  - unfold label_text. by rewrite app_nil_l, app_nil_r.
  - by repeat split.
Qed.

Lemma kwargs_lookup m name :
  name ∈ group_names _identity_regexp →
  truthy_items (groupdict _identity_regexp m) !! name = keep_truthy (m !! name).
Proof.
  intros Hin. unfold truthy_items. rewrite lookup_omap.
  unfold groupdict. cbn [group_names _identity_regexp app fmap list_fmap] in *.
  repeat (apply elem_of_cons in Hin as [->|Hin]); [..|by apply elem_of_nil in Hin];
    by simplify_map_eq.
Qed.

Lemma label_groups_lookup p u h po pa :
  let m := label_groups p u h po pa in
  m !! "proto" = p ∧ m !! "user" = u ∧ m !! "host" = Some h
  ∧ m !! "port" = po ∧ m !! "path" = pa.
Proof.
  unfold label_groups, opt_insert.
  destruct p, u, po, pa; by simplify_map_eq.
Qed.

Lemma string_to_identity_parts s p u h po pa :
  re_match _identity_regexp s = Some (label_groups p u h po pa) →
  string_to_identity s = OK (identity_of_parts p u h po pa).
Proof.
  intros H. unfold string_to_identity. rewrite H.
  unfold identity_type, identity_of_parts.
  rewrite !kwargs_lookup by (cbn; set_solver).
  by destruct (label_groups_lookup p u h po pa) as (-> & -> & -> & -> & ->).
Qed.

Lemma string_to_identity_inv s id :
  string_to_identity s = OK id →
  ∃ p u h po pa tail,
    s = label_text p u h po pa +:+ tail
    ∧ at_end tail = true
    ∧ re_match _identity_regexp s = Some (label_groups p u h po pa)
    ∧ well_shaped p u h po pa
    ∧ id = identity_of_parts p u h po pa.
Proof.
  intros H. destruct (re_match _identity_regexp s) as [m|] eqn:E;
    [|by unfold string_to_identity in H; rewrite E in H].
  destruct (identity_match_inv _ _ E) as (p & u & h & po & pa & tail & Hs & Ht & -> & Hw).
  rewrite (string_to_identity_parts _ _ _ _ _ _ E) in H. injection H as <-.
  by exists p, u, h, po, pa, tail.
Qed.

Lemma getattr_keep_truthy o : getattr (keep_truthy o) = default "" o.
Proof. by destruct o as [[|]|]. Qed.

(** The canonical string, one component after the other *)
Lemma identity_to_string_eq id :
  identity_to_string id =
    (if truthy (getattr (proto id)) then getattr (proto id) +:+ "://" else "") +:+
    ((if truthy (getattr (user id)) then getattr (user id) +:+ "@" else "") +:+
    (getattr (host id) +:+
    ((if truthy (getattr (port id)) then ":" +:+ getattr (port id) else "") +:+
    getattr (path id)))).
Proof.
  unfold identity_to_string.
  destruct (truthy (getattr (proto id))), (truthy (getattr (user id))),
    (truthy (getattr (port id))), (truthy (getattr (path id))) eqn:Epath;
    cbn [app join foldr];
    rewrite ?app_nil_l, ?app_nil_r; try reflexivity;
    apply truthy_false in Epath; by rewrite Epath, ?app_nil_r.
Qed.

Lemma at_end_cases tail :
  at_end tail = true → tail = "" ∨ tail = String LF "".
Proof.
  destruct tail as [|a [|b tail]]; simpl; [auto| |done].
  destruct (Ascii.eqb_spec a LF) as [->|]; [auto|done].
Qed.

End IdentityFacts.


(** ** Address derivation *)

Module AddressFacts.
Import Encoding.

Lemma struct_pack_L_range n :
  0 ≤ n < 2 ^ 32 → struct_pack_L n = OK (le_bytes32 n).
Proof.
  intros [H0 H1]. unfold struct_pack_L, le_bytes32.
  rewrite (proj2 (Z.leb_le _ _) H0), (proj2 (Z.ltb_lt _ _) H1). cbn [andb].
  rewrite !Z.shiftr_div_pow2 by lia. cbn [fmap list_fmap].
  by rewrite Z.pow_0_r, Z.div_1_r.
Qed.

Lemma encode_ascii_all s :
  Str.all is_ascii s = true → encode_ascii s = OK (ascii_bytes s).
Proof.
  induction s as [|a s IH]; [done|]. simpl.
  destruct (is_ascii a); [|done]. intros H. by rewrite (IH H).
Qed.

Lemma byte_to_Z_range b : 0 ≤ byte_to_Z b < 256.
Proof.
  unfold byte_to_Z. pose proof (Byte.to_N_bounded b). lia.
Qed.

Lemma le32_range b0 b1 b2 b3 : 0 ≤ Util.le32 b0 b1 b2 b3 < 2 ^ 32.
Proof.
  unfold Util.le32.
  pose proof (byte_to_Z_range b0). pose proof (byte_to_Z_range b1).
  pose proof (byte_to_Z_range b2). pose proof (byte_to_Z_range b3). lia.
Qed.

Lemma unpack_le32_range data : Forall (λ w, 0 ≤ w < 2 ^ 32) (Util.unpack_le32 data).
Proof.
  assert (∀ n data, (length data ≤ n)%nat →
            Forall (λ w, 0 ≤ w < 2 ^ 32) (Util.unpack_le32 data)) as H;
    [|by apply (H (length data))].
  clear data. induction n as [|n IH]; intros data Hn;
    destruct data as [|b0 [|b1 [|b2 [|b3 data]]]]; simpl in *;
    try constructor; try lia.
  - apply le32_range.
  - apply IH. lia.
Qed.

Lemma recv_le32_digest digest :
  (16 ≤ length digest)%nat →
  Util.recv_le32 4 digest =
    OK ([digest_word digest 0; digest_word digest 1;
         digest_word digest 2; digest_word digest 3],
        drop 16 digest).
Proof.
  intros H. unfold Util.recv_le32, Util.recv, mbind, io_bind, mret, io_ret.
  replace (4 * 4 <=? length digest)%nat with true
    by (symmetry; apply Nat.leb_le; simpl; lia).
  do 16 (destruct digest as [|? digest]; [simpl in H; lia|]).
  reflexivity.
Qed.

Lemma hardened_lor w :
  0 ≤ w < 2 ^ 32 →
  Z.testbit (Z.lor hardened w) 31 = true ∧ 0 ≤ Z.lor hardened w < 2 ^ 32.
Proof.
  intros [H0 H1]. split.
  - by rewrite Z.lor_spec.
  - split; [by apply Z.lor_nonneg|].
    destruct (Z.eq_dec (Z.lor hardened w) 0) as [->|Hne]; [done|].
    apply Z.log2_lt_pow2; [pose proof (Z.lor_nonneg hardened w); unfold hardened in *; lia|].
    rewrite Z.log2_lor by (unfold hardened; lia).
    destruct (Z.eq_dec w 0) as [->|Hw]; [by vm_compute|].
    assert (Z.log2 w < 32) by (apply Z.log2_lt_pow2; lia).
    change (Z.log2 hardened) with 31. lia.
Qed.

End AddressFacts.

Module AddressClaims.
Import Encoding AddressFacts.

(** C1.  For every identity whose index has a 4-byte encoding (it lies
    in [0 .. 2^32 - 1], the range of the field) and whose canonical
    string is pure ASCII, and a digest of at least 16 bytes (four
    words), the derived path is the 5-element
    sequence [13, word0, word1, word2, word3] with every element OR'd
    with [0x80000000], where [word0 .. word3] are the first four
    little-endian 32-bit words of the digest of the seed: the 4-byte
    little-endian encoding of the index followed by the ASCII bytes of
    the canonical string.  Every element is a 32-bit value with its top
    bit set, and the first one is [0x8000000D]. *)
Theorem get_address_path (hashfunc : bytes → bytes) (identity : IdentityType) :
  let seed :=
    le_bytes32 (index identity) ++ ascii_bytes (identity_to_string identity) in
  let digest := hashfunc seed in
  0 ≤ index identity < 2 ^ 32 →
  Str.all is_ascii (identity_to_string identity) = true →
  (16 ≤ length digest)%nat →
  ∃ address_n,
    _get_address hashfunc identity = OK address_n
    ∧ address_n = Z.lor 0x80000000 <$>
        [13; digest_word digest 0; digest_word digest 1;
         digest_word digest 2; digest_word digest 3]
    ∧ Forall (λ v, Z.testbit v 31 = true ∧ 0 ≤ v < 2 ^ 32) address_n
    ∧ address_n !! 0%nat = Some 0x8000000D.
Proof.
  intros seed digest Hindex Hascii Hlen.
  assert (_get_address hashfunc identity =
            OK (Z.lor hardened <$> [13] ++ Util.unpack_le32 (take 16 digest))) as Hrun.
  { unfold _get_address.
    rewrite (struct_pack_L_range _ Hindex). cbn [mbind result_bind].
    rewrite (encode_ascii_all _ Hascii). cbn [mbind result_bind].
    fold seed. fold digest.
    unfold Util.recv_le32, Util.recv, mbind at 2, io_bind, mret, io_ret.
    replace (4 * 4 <=? length digest)%nat with true
      by (symmetry; apply Nat.leb_le; simpl; lia).
    reflexivity. }
  pose proof (recv_le32_digest digest Hlen) as Hwords.
  unfold Util.recv_le32, Util.recv, mbind, io_bind, mret, io_ret in Hwords.
  replace (4 * 4 <=? length digest)%nat with true in Hwords
    by (symmetry; apply Nat.leb_le; simpl; lia).
  injection Hwords as Hwords.
  eexists. split; [exact Hrun|].
  split; [by rewrite Hwords|].
  split; [|done].
  apply Forall_fmap, Forall_app. split.
  - repeat constructor; by vm_compute.
  - eapply Forall_impl; [apply unpack_le32_range|].
    intros w Hw. by apply hardened_lor.
Qed.

Lemma get_address_path_witness :
  ∃ address_n,
    _get_address Toy.hashfunc
      (mkIdentity (Some "ssh") (Some "alice") (Some "git.example.com")
         (Some "22") (Some "/repo") 0) = OK address_n
    ∧ address_n !! 0%nat = Some 0x8000000D
    ∧ length address_n = 5%nat.
Proof.
  destruct (get_address_path Toy.hashfunc
              (mkIdentity (Some "ssh") (Some "alice") (Some "git.example.com")
                 (Some "22") (Some "/repo") 0))
    as (address_n & Hrun & Heq & _ & Hfirst).
  - by vm_compute.
  - by vm_compute.
  - vm_compute. lia.
  - exists address_n. split; [done|]. split; [done|]. by rewrite Heq.
Defined.

End AddressClaims.

(** ** Challenge blobs and signatures *)

Module BlobFacts.

Section Parse.
Context {VerifyingKey : Type}.
Variable parse_pubkey : bytes → result (PublicKeyRecord VerifyingKey).
Variable read_frame : io bytes.

Local Abbreviation parse := (_parse_ssh_blob VerifyingKey parse_pubkey read_frame).

Ltac step H :=
  match type of H with
  | context [read_frame ?buf] =>
      let x := fresh "field" in
      let buf' := fresh "buf" in
      let E := fresh "Eframe" in
      destruct (read_frame buf) as [[x buf']|] eqn:E; [|done]
  | context [parse_pubkey ?b] =>
      let k := fresh "parsed" in
      let E := fresh "Eparse" in
      destruct (parse_pubkey b) as [k|] eqn:E; [|done]
  end.

(** The dictionary of a challenge that is not empty holds the six
    named fields. *)
Lemma parse_fields data msg :
  data ≠ [] →
  parse data = OK msg →
  ∃ nonce user conn auth key_type parsed,
    msg = <["public_key" := VPublicKey VerifyingKey parsed]>
           (<["key_type" := VBytes VerifyingKey key_type]>
           (<["auth" := VBytes VerifyingKey auth]>
           (<["conn" := VBytes VerifyingKey conn]>
           (<["user" := VBytes VerifyingKey user]>
           (<["nonce" := VBytes VerifyingKey nonce]> ∅))))).
Proof.
  intros Hne H. destruct data as [|b data]; [done|].
  unfold _parse_ssh_blob, mbind, io_bind, read, read_all, lift, mret, io_ret in H.
  cbn [result_bind] in H.
  repeat step H.
  destruct (assert _); [|done]. injection H as <-. eauto 10.
Qed.

(** The reads of a successful parse, one after the other *)
Lemma parse_trace data msg :
  data ≠ [] →
  parse data = OK msg →
  ∃ nonce buf1 user buf2 conn buf3 auth buf4 key_type buf5 public_key parsed,
    read_frame data = OK (nonce, buf1)
    ∧ read_frame (drop 1 buf1) = OK (user, buf2)
    ∧ read_frame buf2 = OK (conn, buf3)
    ∧ read_frame buf3 = OK (auth, buf4)
    ∧ read_frame (drop 1 buf4) = OK (key_type, buf5)
    ∧ read_frame buf5 = OK (public_key, [])
    ∧ parse_pubkey public_key = OK parsed
    ∧ msg = <["public_key" := VPublicKey VerifyingKey parsed]>
             (<["key_type" := VBytes VerifyingKey key_type]>
             (<["auth" := VBytes VerifyingKey auth]>
             (<["conn" := VBytes VerifyingKey conn]>
             (<["user" := VBytes VerifyingKey user]>
             (<["nonce" := VBytes VerifyingKey nonce]> ∅))))).
Proof.
  intros Hne H. destruct data as [|b data]; [done|].
  unfold _parse_ssh_blob, mbind, io_bind, read, read_all, lift, mret, io_ret in H.
  cbn [result_bind] in H.
  repeat step H.
  destruct buf4 as [|??]; [|done]. injection H as <-.
  do 12 eexists. repeat split; eassumption.
Qed.

(** ** Trailing and missing bytes

    What the proofs below need of [read_frame]: a frame that was read
    is read again when more bytes follow; cut short, it either fails
    or was not touched by the cut; and a frame is never empty. *)
Hypothesis Hextend : ∀ buf x rest extra,
  read_frame buf = OK (x, rest) →
  read_frame (buf ++ extra) = OK (x, rest ++ extra).
Hypothesis Htruncate : ∀ buf x rest n,
  read_frame buf = OK (x, rest) →
  (n < length buf)%nat →
  read_frame (take n buf) = Raise ShortRead
  ∨ ∃ n', (n' < length rest)%nat ∧ read_frame (take n buf) = OK (x, take n' rest).
Hypothesis Hprogress : ∀ buf x rest,
  read_frame buf = OK (x, rest) → buf ≠ [].

Lemma drop1_app (buf extra : bytes) :
  drop 1 buf ≠ [] → drop 1 (buf ++ extra) = drop 1 buf ++ extra.
Proof. by destruct buf. Qed.

Lemma drop1_take (buf : bytes) n :
  drop 1 (take n buf) = take (n - 1) (drop 1 buf).
Proof.
  destruct n as [|n], buf as [|b buf]; simpl;
    rewrite ?Nat.sub_0_r, ?drop_0, ?take_0, ?take_nil; done.
Qed.

Lemma parse_trailing data msg extra :
  data ≠ [] →
  parse data = OK msg →
  extra ≠ [] →
  parse (data ++ extra) = Raise AssertionError.
Proof using Hextend Hprogress.
  intros Hne H Hextra.
  destruct (parse_trace _ _ Hne H)
    as (nonce & buf1 & user & buf2 & conn & buf3 & auth & buf4 & key_type
        & buf5 & public_key & parsed & E1 & E2 & E3 & E4 & E5 & E6 & Epk & _).
  pose proof (Hprogress _ _ _ E2) as N2.
  pose proof (Hprogress _ _ _ E5) as N5.
  unfold _parse_ssh_blob.
  destruct (data ++ extra) as [|b l] eqn:Eapp;
    [by apply app_eq_nil in Eapp as [-> _]|].
  rewrite <-Eapp. clear Eapp b l.
  unfold mbind at 1, io_bind at 1, mbind at 1, io_bind at 1.
  rewrite (Hextend _ _ _ extra E1).
  unfold mbind at 1, io_bind at 1, read at 1.
  rewrite (drop1_app _ extra N2).
  unfold mbind at 1, io_bind at 1.
  rewrite (Hextend _ _ _ extra E2).
  unfold mbind at 1, io_bind at 1.
  rewrite (Hextend _ _ _ extra E3).
  unfold mbind at 1, io_bind at 1.
  rewrite (Hextend _ _ _ extra E4).
  unfold mbind at 1, io_bind at 1, read at 1.
  rewrite (drop1_app _ extra N5).
  unfold mbind at 1, io_bind at 1.
  rewrite (Hextend _ _ _ extra E5).
  unfold mbind at 1, io_bind at 1.
  rewrite (Hextend _ _ _ extra E6).
  unfold mbind, io_bind, lift, read_all, mret, io_ret. rewrite Epk.
  rewrite app_nil_l, bool_decide_eq_false_2 by done.
  reflexivity.
Qed.

Lemma parse_truncated data msg n :
  data ≠ [] →
  parse data = OK msg →
  (0 < n < length data)%nat →
  parse (take n data) = Raise ShortRead.
Proof using Htruncate Hprogress.
  intros Hne H [Hn0 Hn].
  destruct (parse_trace _ _ Hne H)
    as (nonce & buf1 & user & buf2 & conn & buf3 & auth & buf4 & key_type
        & buf5 & public_key & parsed & E1 & E2 & E3 & E4 & E5 & E6 & Epk & _).
  assert (0 < length (drop 1 buf1))%nat as N2.
  { pose proof (Hprogress _ _ _ E2). destruct (drop 1 buf1); [done|simpl; lia]. }
  assert (0 < length (drop 1 buf4))%nat as N5.
  { pose proof (Hprogress _ _ _ E5). destruct (drop 1 buf4); [done|simpl; lia]. }
  unfold _parse_ssh_blob.
  destruct (take n data) as [|b l] eqn:Etake.
  { destruct n, data; simpl in *; try done; lia. }
  rewrite <-Etake. clear Etake b l.
  unfold mbind at 1, io_bind at 1, mbind at 1, io_bind at 1.
  destruct (Htruncate _ _ _ n E1 Hn) as [->|(n1 & Hn1 & ->)]; [done|].
  unfold mbind at 1, io_bind at 1, read at 1. rewrite drop1_take.
  unfold mbind at 1, io_bind at 1.
  destruct (Htruncate _ _ _ (n1 - 1) E2
              ltac:(rewrite length_drop in *; lia)) as [->|(n2 & Hn2 & ->)]; [done|].
  unfold mbind at 1, io_bind at 1.
  destruct (Htruncate _ _ _ n2 E3 Hn2) as [->|(n3 & Hn3 & ->)]; [done|].
  unfold mbind at 1, io_bind at 1.
  destruct (Htruncate _ _ _ n3 E4 Hn3) as [->|(n4 & Hn4 & ->)]; [done|].
  unfold mbind at 1, io_bind at 1, read at 1. rewrite drop1_take.
  unfold mbind at 1, io_bind at 1.
  destruct (Htruncate _ _ _ (n4 - 1) E5
              ltac:(rewrite length_drop in *; lia)) as [->|(n5 & Hn5 & ->)]; [done|].
  unfold mbind at 1, io_bind at 1.
  destruct (Htruncate _ _ _ n5 E6 Hn5) as [->|(n6 & Hn6 & ->)]; [done|].
  simpl in Hn6. lia.
Qed.

End Parse.

End BlobFacts.

Module SignatureClaims.
Import BlobFacts.

Section Signing.
Context {VerifyingKey : Type}.
Variable decompress_pubkey : bytes → string → result VerifyingKey.
Variable serialize_verifying_key : VerifyingKey → result (bytes * bytes).
Variable parse_pubkey : bytes → result (PublicKeyRecord VerifyingKey).
Variable read_frame : io bytes.
Variable curve : string.
Variable sign_identity :
  IdentityType → bytes → string → string → result SignedIdentity.

Local Abbreviation parse :=
  (_parse_ssh_blob VerifyingKey parse_pubkey read_frame).
Local Abbreviation sign :=
  (sign_ssh_challenge VerifyingKey decompress_pubkey serialize_verifying_key
     parse_pubkey read_frame curve sign_identity).

(** A signing request that reaches the post-processing: the label and
    the challenge parse, the device answers with [result], and its
    public key serializes to [key_type] and [returned_blob]. *)
Variables (label : string) (blob : bytes).
Variables (identity : IdentityType) (msg : gmap string (value VerifyingKey)).
Variables (result : SignedIdentity) (verifying_key : VerifyingKey).
Variables (key_type returned_blob : bytes).
Variables (expected_key : PublicKeyRecord VerifyingKey) (expected_type : bytes).

Hypothesis Hblob : blob ≠ [].
Hypothesis Hidentity : get_identity label = OK identity.
Hypothesis Hparse : parse blob = OK msg.
Hypothesis Hdevice :
  sign_identity identity blob (getattr (path identity)) curve = OK result.
Hypothesis Hdecompress :
  decompress_pubkey (public_key result) curve = OK verifying_key.
Hypothesis Hserialize :
  serialize_verifying_key verifying_key = OK (key_type, returned_blob).
Hypothesis Hkey : msg !! "public_key" = Some (VPublicKey VerifyingKey expected_key).
Hypothesis Htype : msg !! "key_type" = Some (VBytes VerifyingKey expected_type).

(** What is left of [sign_ssh_challenge] once the device has answered:
    the four assertions and the slice. *)
Lemma sign_post_processing :
  sign label blob =
    (_ ← assert (bool_decide (returned_blob = pk_blob VerifyingKey expected_key));
     _ ← assert (bool_decide (key_type = expected_type));
     _ ← assert (bool_decide (length (signature result) = 65%nat));
     _ ← assert (bool_decide (take 1 (signature result) = [x00]));
     mret (drop 1 (signature result))).
Proof using All.
  destruct (parse_fields _ _ _ _ Hblob Hparse)
    as (nonce & user & conn & auth & kt & parsed & Hmsg).
  unfold sign_ssh_challenge.
  rewrite Hidentity. cbn [mbind result_bind].
  rewrite Hparse. cbn [mbind result_bind].
  assert (getitem VerifyingKey msg "user" = OK (VBytes VerifyingKey user)) as ->
    by (unfold getitem; rewrite Hmsg; by simplify_map_eq).
  cbn [mbind result_bind].
  rewrite Hdevice. cbn [mbind result_bind].
  rewrite Hdecompress. cbn [mbind result_bind].
  rewrite Hserialize. cbn [mbind result_bind].
  unfold getitem. rewrite Hkey, Htype. reflexivity.
Qed.

(** C3 (amended).  When the public-key blob serialized from the key the
    device returned differs from the one parsed out of the challenge, or
    the serialized key type differs from the challenge's [key_type],
    [sign_ssh_challenge] fails on the corresponding [assert], whatever
    the raw signature is: a well-formed one does not help.  What is
    raised is the [AssertionError] of every failed [assert], not an
    error kind of its own. *)
Theorem sign_rejects_mismatch :
  returned_blob ≠ pk_blob VerifyingKey expected_key ∨ key_type ≠ expected_type →
  sign label blob = Raise AssertionError.
Proof using All.
  intros Hne. rewrite sign_post_processing.
  destruct (decide (returned_blob = pk_blob VerifyingKey expected_key)) as [Eb|Eb].
  - destruct Hne as [?|Hne]; [done|].
    rewrite (bool_decide_eq_true_2 _ Eb). cbn [assert mbind result_bind].
    by rewrite (bool_decide_eq_false_2 _ Hne).
  - by rewrite (bool_decide_eq_false_2 _ Eb).
Qed.

(** C2 (amended).  When the two cross-checks pass, a raw signature
    whose length is not 65 bytes, or whose first byte is not 0, is
    rejected by the [assert] on it, whatever the rest of the signature
    holds.  What is raised is the [AssertionError] of every failed
    [assert], not an error kind of its own. *)
Theorem sign_rejects_malformed :
  returned_blob = pk_blob VerifyingKey expected_key →
  key_type = expected_type →
  length (signature result) ≠ 65%nat ∨ head (signature result) ≠ Some x00 →
  sign label blob = Raise AssertionError.
Proof using All.
  intros Eb Et Hbad. rewrite sign_post_processing.
  rewrite (bool_decide_eq_true_2 _ Eb), (bool_decide_eq_true_2 _ Et).
  cbn [assert mbind result_bind].
  destruct (decide (length (signature result) = 65%nat)) as [El|El].
  - destruct Hbad as [?|Hbad]; [done|].
    rewrite (bool_decide_eq_true_2 _ El). cbn [assert mbind result_bind].
    rewrite bool_decide_eq_false_2; [done|].
    intros Htake. apply Hbad. by destruct (signature result) as [|? []]; simplify_eq/=.
  - by rewrite (bool_decide_eq_false_2 _ El).
Qed.

(** C4.  When the two cross-checks pass and the raw signature has 65
    bytes of which the first is 0, [sign_ssh_challenge] returns the
    64 bytes that follow the first one, and nothing else. *)
Theorem sign_returns_tail :
  returned_blob = pk_blob VerifyingKey expected_key →
  key_type = expected_type →
  length (signature result) = 65%nat →
  head (signature result) = Some x00 →
  sign label blob = OK (drop 1 (signature result))
  ∧ length (drop 1 (signature result)) = 64%nat
  ∧ signature result = x00 :: drop 1 (signature result).
Proof using All.
  intros Eb Et El Eh. rewrite sign_post_processing.
  rewrite (bool_decide_eq_true_2 _ Eb), (bool_decide_eq_true_2 _ Et),
    (bool_decide_eq_true_2 _ El).
  cbn [assert mbind result_bind].
  destruct (signature result) as [|b sig]; [done|].
  injection Eh as ->. simpl in *.
  split; [done|]. split; [|done]. rewrite drop_0. lia.
Qed.

End Signing.

End SignatureClaims.

Module FrameFacts.
Import Encoding.

Lemma recv_Some size buf x rest :
  Util.recv size buf = OK (x, rest) →
  (size ≤ length buf)%nat ∧ x = take size buf ∧ rest = drop size buf.
Proof.
  unfold Util.recv. destruct (size <=? length buf)%nat eqn:E; [|done].
  intros [= <- <-]. by apply Nat.leb_le in E.
Qed.

Lemma recv_extend size buf x rest extra :
  Util.recv size buf = OK (x, rest) →
  Util.recv size (buf ++ extra) = OK (x, rest ++ extra).
Proof.
  intros (Hle & -> & ->)%recv_Some. unfold Util.recv.
  rewrite length_app.
  replace (size <=? length buf + length extra)%nat with true
    by (symmetry; apply Nat.leb_le; lia).
  by rewrite take_app_le, drop_app_le.
Qed.

Lemma recv_truncate size buf x rest n :
  Util.recv size buf = OK (x, rest) →
  (n < length buf)%nat →
  Util.recv size (take n buf) = Raise ShortRead
  ∨ ∃ n', (n' < length rest)%nat
          ∧ Util.recv size (take n buf) = OK (x, take n' rest).
Proof.
  intros (Hle & -> & ->)%recv_Some Hn. unfold Util.recv.
  rewrite length_take, Nat.min_l by lia.
  destruct (size <=? n)%nat eqn:E; [|by left].
  apply Nat.leb_le in E. right. exists (n - size)%nat.
  rewrite length_drop. split; [lia|].
  rewrite take_take, Nat.min_l by lia.
  by rewrite skipn_firstn_comm.
Qed.

Section Frames.
Variables (width : nat) (size_of : bytes → nat).

Local Abbreviation read_frame := (Util.read_frame width size_of).

Lemma read_frame_Some buf x rest :
  read_frame buf = OK (x, rest) →
  ∃ header rest', Util.recv width buf = OK (header, rest')
                  ∧ Util.recv (size_of header) rest' = OK (x, rest).
Proof.
  unfold Util.read_frame, mbind, io_bind.
  destruct (Util.recv width buf) as [[header rest']|]; [eauto|done].
Qed.

Lemma read_frame_extend buf x rest extra :
  read_frame buf = OK (x, rest) →
  read_frame (buf ++ extra) = OK (x, rest ++ extra).
Proof.
  intros (header & rest' & H1 & H2)%read_frame_Some.
  unfold Util.read_frame, mbind, io_bind.
  rewrite (recv_extend _ _ _ _ extra H1). by apply recv_extend.
Qed.

Lemma read_frame_truncate buf x rest n :
  read_frame buf = OK (x, rest) →
  (n < length buf)%nat →
  read_frame (take n buf) = Raise ShortRead
  ∨ ∃ n', (n' < length rest)%nat
          ∧ read_frame (take n buf) = OK (x, take n' rest).
Proof.
  intros (header & rest' & H1 & H2)%read_frame_Some Hn.
  unfold Util.read_frame, mbind, io_bind.
  destruct (recv_truncate _ _ _ _ n H1 Hn) as [->|(n1 & Hn1 & ->)]; [by left|].
  apply (recv_truncate _ _ _ _ n1 H2 Hn1).
Qed.

Lemma read_frame_layout buf x rest :
  read_frame buf = OK (x, rest) →
  ∃ header, framed width size_of header x ∧ buf = header ++ x ++ rest.
Proof.
  intros (header & rest' & (H1 & -> & ->)%recv_Some & (H2 & -> & ->)%recv_Some)
    %read_frame_Some.
  exists (take width buf). split; [split|].
  - rewrite length_take. lia.
  - rewrite length_take. lia.
  - by rewrite !take_drop.
Qed.

Lemma read_frame_progress buf x rest :
  (0 < width)%nat → read_frame buf = OK (x, rest) → buf ≠ [].
Proof.
  intros Hw (header & rest' & (H1 & _)%recv_Some & _)%read_frame_Some ->.
  simpl in H1. lia.
Qed.
End Frames.

End FrameFacts.

Module BlobClaims.
Import Encoding BlobFacts FrameFacts.

(** C7.  On an input that is not empty the parser reads the fields
    [nonce], a reserved byte, [user], [conn], [auth], a reserved byte,
    [key_type] and the public-key blob, and then asserts that nothing is
    left.  So, for the frames of the specification (a length field of
    fixed, positive width before each field): an accepted input is made
    of exactly these fields, one after the other; bytes appended to an
    accepted input are rejected by the assertion; and an accepted input
    cut short, anywhere, but not down to nothing, is rejected by the
    bounded read that meets the end of the buffer. *)
Theorem parse_exhausts_input {VerifyingKey : Type}
    (parse_pubkey : bytes → result (PublicKeyRecord VerifyingKey))
    (width : nat) (size_of : bytes → nat) (data : bytes)
    (msg : gmap string (value VerifyingKey)) :
  let parse :=
    _parse_ssh_blob VerifyingKey parse_pubkey (Util.read_frame width size_of) in
  (0 < width)%nat →
  data ≠ [] →
  parse data = OK msg →
  (∃ h1 nonce b1 h2 user h3 conn h4 auth b2 h5 key_type h6 public_key parsed,
     data = (h1 ++ nonce) ++ [b1] ++ (h2 ++ user) ++ (h3 ++ conn)
            ++ (h4 ++ auth) ++ [b2] ++ (h5 ++ key_type) ++ (h6 ++ public_key)
     ∧ Forall (λ '(header, payload), framed width size_of header payload)
         [(h1, nonce); (h2, user); (h3, conn); (h4, auth); (h5, key_type);
          (h6, public_key)]
     ∧ parse_pubkey public_key = OK parsed
     ∧ msg = <["public_key" := VPublicKey VerifyingKey parsed]>
              (<["key_type" := VBytes VerifyingKey key_type]>
              (<["auth" := VBytes VerifyingKey auth]>
              (<["conn" := VBytes VerifyingKey conn]>
              (<["user" := VBytes VerifyingKey user]>
              (<["nonce" := VBytes VerifyingKey nonce]> ∅))))))
  ∧ (∀ extra, extra ≠ [] → parse (data ++ extra) = Raise AssertionError)
  ∧ (∀ n, (0 < n < length data)%nat → parse (take n data) = Raise ShortRead).
Proof.
  intros parse Hwidth Hne H. split; [|split].
  - destruct (parse_trace _ _ _ _ Hne H)
      as (nonce & buf1 & user & buf2 & conn & buf3 & auth & buf4 & key_type
          & buf5 & public_key & parsed & E1 & E2 & E3 & E4 & E5 & E6 & Epk & Hmsg).
    pose proof (read_frame_progress _ _ _ _ _ Hwidth E2) as N2.
    pose proof (read_frame_progress _ _ _ _ _ Hwidth E5) as N5.
    apply read_frame_layout in E1 as (h1 & F1 & ->).
    apply read_frame_layout in E2 as (h2 & F2 & E2).
    apply read_frame_layout in E3 as (h3 & F3 & ->).
    apply read_frame_layout in E4 as (h4 & F4 & ->).
    apply read_frame_layout in E5 as (h5 & F5 & E5).
    apply read_frame_layout in E6 as (h6 & F6 & ->).
    destruct buf1 as [|b1 buf1]; [done|]. destruct buf4 as [|b2 buf4]; [done|].
    simpl in E2, E5. rewrite drop_0 in E2, E5. subst buf1 buf4.
    exists h1, nonce, b1, h2, user, h3, conn, h4, auth, b2, h5, key_type, h6,
      public_key, parsed.
    split; [|split; [|done]].
    + rewrite app_nil_r. by rewrite <-!app_assoc.
    + by repeat apply Forall_cons_2; [..|apply Forall_nil_2].
  - intros extra Hextra.
    apply (parse_trailing parse_pubkey _ (read_frame_extend width size_of)
             (λ buf x rest, read_frame_progress width size_of buf x rest Hwidth)
             data msg extra Hne H Hextra).
  - intros n Hn.
    apply (parse_truncated parse_pubkey _ (read_frame_truncate width size_of)
             (λ buf x rest, read_frame_progress width size_of buf x rest Hwidth)
             data msg n Hne H Hn).
Qed.

(** C8.  The empty input is the valid value "no challenge": the parser
    returns the empty dictionary, without reading a field and without
    raising. *)
Theorem parse_empty {VerifyingKey : Type}
    (parse_pubkey : bytes → result (PublicKeyRecord VerifyingKey))
    (read_frame : io bytes) :
  _parse_ssh_blob VerifyingKey parse_pubkey read_frame [] = OK ∅.
Proof. reflexivity. Qed.

End BlobClaims.

(** ** The protocol prefix of a label *)

Module ProtoFacts.
Import Str StrFacts Matching Label ReFacts IdentityFacts.

Section Related.
Variable R : relation groups.
Hypothesis R_insert : ∀ name w c1 c2,
  R c1 c2 → R (<[name := w]> c1) (<[name := w]> c2).

Lemma star_greedy_rel p s (k1 k2 : string → option groups) :
  (∀ s', orel R (k1 s') (k2 s')) →
  orel R (star_greedy p s k1) (star_greedy p s k2).
Proof.
  intros Hk. induction s as [|a s IH]; simpl; [apply Hk|].
  destruct (p a); [|apply Hk].
  destruct (star_greedy p s k1), (star_greedy p s k2);
    first [done|apply Hk].
Qed.

Lemma star_lazy_rel p s (k1 k2 : string → option groups) :
  (∀ s', orel R (k1 s') (k2 s')) →
  orel R (star_lazy p s k1) (star_lazy p s k2).
Proof.
  intros Hk. induction s as [|a s IH]; simpl.
  - specialize (Hk ""). by destruct (k1 ""), (k2 "").
  - specialize (Hk (String a s)).
    destruct (k1 (String a s)), (k2 (String a s)); try done.
    by destruct (p a).
Qed.

Lemma run_rel r subject1 subject2 s c1 c2 k1 k2 :
  bos_free r = true →
  R c1 c2 →
  (∀ s' c1' c2', R c1' c2' → orel R (k1 s' c1') (k2 s' c2')) →
  orel R (run r subject1 s c1 k1) (run r subject2 s c2 k2).
Proof.
  revert s c1 c2 k1 k2.
  induction r as [| |l|cs g|name r IH|r IH|r1 IH1 r2 IH2];
    intros s c1 c2 k1 k2 Hfree Hc Hk; simpl in *.
  - done.
  - destruct (at_end s); [by apply Hk|done].
  - destruct (strip_prefix l s); [by apply Hk|done].
  - destruct g; [apply star_greedy_rel|apply star_lazy_rel];
      intros s'; by apply Hk.
  - apply IH; [done..|]. intros s' c1' c2' Hc'. by apply Hk, R_insert.
  - pose proof (IH s c1 c2 k1 k2 Hfree Hc Hk) as Hr.
    destruct (run r subject1 s c1 k1), (run r subject2 s c2 k2);
      first [done|by apply Hk].
  - apply andb_true_iff in Hfree as [Hf1 Hf2].
    apply IH1; [done..|]. intros s' c1' c2' Hc'. by apply IH2.
Qed.
End Related.

Lemma same_but_insert skip name w c1 c2 :
  same_but skip c1 c2 →
  same_but skip (<[name := w]> c1) (<[name := w]> c2).
Proof.
  unfold same_but. intros H.
  destruct (decide (name = skip)) as [->|Hne].
  - by rewrite !delete_insert_eq.
  - rewrite !delete_insert_ne by done. by rewrite H.
Qed.

Lemma star_greedy_skip {A} p w s (k : string → option A) m :
  all p w = true →
  star_greedy p s k = Some m →
  star_greedy p (w +:+ s) k = Some m.
Proof.
  intros Hw Hs. induction w as [|a w IH]; [done|].
  simpl in Hw. apply andb_true_iff in Hw as [Ha Hw].
  rewrite app_cons. simpl. by rewrite Ha, (IH Hw).
Qed.

Lemma star_lazy_complete {A} p w s (k : string → option A) :
  all p w = true →
  is_Some (k s) →
  is_Some (star_lazy p (w +:+ s) k).
Proof.
  intros Hw [m Hm]. induction w as [|a w IH].
  - rewrite app_nil_l. destruct s; simpl; by rewrite Hm.
  - simpl in Hw. apply andb_true_iff in Hw as [Ha Hw].
    rewrite app_cons. simpl. rewrite Ha.
    destruct (k (String a (w +:+ s))); [done|by apply IH].
  Qed.

Lemma is_line_split s :
  is_line s = true →
  ∃ w tail, s = w +:+ tail ∧ all (mem Dot) w = true ∧ at_end tail = true.
Proof.
  induction s as [|a s IH]; simpl; [by exists "", ""|].
  destruct (Ascii.eqb a LF) eqn:Ea.
  - destruct s; [|done]. intros _. exists "", (String a ""). simpl. by rewrite Ea.
  - intros (w & tail & -> & Hw & Ht)%IH.
    exists (String a w), tail. simpl. by rewrite Ea, Hw.
Qed.

Lemma is_line_join w tail :
  all (mem Dot) w = true → at_end tail = true → is_line (w +:+ tail) = true.
Proof.
  intros Hw Ht. induction w as [|a w IH].
  - rewrite app_nil_l. destruct tail as [|b [|c tail]]; simpl in *; try done.
    by rewrite Ht.
  - simpl in Hw. apply andb_true_iff in Hw as [Ha Hw].
    rewrite app_cons. simpl. apply negb_true_iff in Ha. rewrite Ha. by apply IH.
Qed.

(** A line feed can only be the last character: what comes before a
    character of a line holds none. *)
Lemma is_line_prefix w a s :
  is_line (w +:+ String a s) = true →
  all (mem Dot) w = true ∧ is_line (String a s) = true.
Proof.
  induction w as [|b w IH]; [done|].
  rewrite app_cons. intros H. cbn [is_line] in H.
  destruct (Ascii.eqb b LF) eqn:Eb.
  - by destruct w.
  - destruct (IH H) as [Hw Hs]. split; [|done].
    cbn [all mem]. by rewrite Eb, Hw.
Qed.

Lemma is_word_dot a : is_word a = true → mem Dot a = true.
Proof.
  intros H. simpl. destruct (Ascii.eqb_spec a LF) as [->|]; [|done].
  by vm_compute in H.
Qed.

Lemma all_word_dot s : all (mem Word) s = true → all (mem Dot) s = true.
Proof.
  induction s as [|a s IH]; [done|]. cbn [all].
  intros [Ha Hs]%andb_true_iff. by rewrite (is_word_dot _ Ha), (IH Hs).
Qed.

Lemma label_text_dot p u h po pa :
  well_shaped p u h po pa → all (mem Dot) (label_text p u h po pa) = true.
Proof.
  intros (Hp & Hu & Hh & Hpo & Hpa).
  unfold label_text. rewrite !all_app, Hh.
  assert (all (mem Dot) (from_option (λ x, x +:+ "://") "" p) = true) as ->.
  { destruct p as [x|]; [|done]. simpl. by rewrite all_app, (Hp x). }
  assert (all (mem Dot) (from_option (λ x, x +:+ "@") "" u) = true) as ->.
  { destruct u as [x|]; [|done]. simpl. by rewrite all_app, (Hu x). }
  assert (all (mem Dot) (from_option (λ x, ":" +:+ x) "" po) = true) as ->.
  { destruct po as [x|]; [|done]. simpl. rewrite all_app.
    by rewrite (all_word_dot x (Hpo x eq_refl)). }
  assert (all (mem Dot) (default "" pa) = true) as ->; [|done].
  destruct pa as [x|]; [|done]. simpl.
  destruct (Hpa x eq_refl) as (y & -> & Hy). by rewrite all_app, Hy.
Qed.

(** Only single lines are accepted. *)
Lemma accepted_is_line s m :
  re_match _identity_regexp s = Some m → is_line s = true.
Proof.
  intros (p & u & h & po & pa & tail & -> & Ht & _ & Hw)%identity_match_inv.
  apply is_line_join; [|done]. by apply label_text_dot.
Qed.

Lemma re_match_unfold s :
  re_match _identity_regexp s =
    match star_greedy (mem Dot) s (after_proto s) with
    | Some m => Some m
    | None => run identity_tail s s ∅ accept
    end.
Proof.
  unfold re_match, _identity_regexp. cbn [run]. by rewrite Nat.eqb_refl.
Qed.

Lemma opt_complete r subject s c k :
  is_Some (k s c) → is_Some (run (Opt r) subject s c k).
Proof. intros H. simpl. by destruct (run r subject s c k). Qed.

Lemma run_seq r1 r2 subject s c k :
  run (Seq r1 r2) subject s c k =
    run r1 subject s c (λ s' c', run r2 subject s' c' k).
Proof. reflexivity. Qed.

Lemma run_group_lazy name cs subject s c k :
  run (Group name (Star cs false)) subject s c k =
    star_lazy (mem cs) s (λ s', k s' (<[name := consumed s s']> c)).
Proof. reflexivity. Qed.

(** The tail of the pattern matches every single line. *)
Lemma tail_complete subject s c :
  is_line s = true → is_Some (run identity_tail subject s c accept).
Proof.
  intros (w & tail & -> & Hw & Ht)%is_line_split.
  unfold identity_tail, identity_host.
  rewrite run_seq. apply opt_complete.
  rewrite run_seq, run_group_lazy. apply star_lazy_complete; [done|].
  rewrite run_seq. apply opt_complete.
  rewrite run_seq. apply opt_complete.
  cbn [run]. by rewrite Ht.
Qed.

(** The first candidates for [proto] end in what follows the prefix;
    the prefix itself comes next, and is accepted. *)
Lemma re_match_proto o r :
  let pre := from_option (λ x, x +:+ "://") "" o in
  is_line (pre +:+ r) = true →
  re_match _identity_regexp (pre +:+ r) =
    match star_greedy (mem Dot) r (after_proto (pre +:+ r)) with
    | Some m => Some m
    | None => run identity_tail (pre +:+ r) r (opt_insert "proto" o ∅) accept
    end.
Proof.
  destruct o as [p|]; cbn [from_option opt_insert]; intros Hline.
  - rewrite app_assoc in *. change ("://" +:+ r) with (String ":" ("//" +:+ r)) in *.
    apply is_line_prefix in Hline as [Hp Hr].
    set (l := p +:+ String ":" ("//" +:+ r)).
    destruct (tail_complete l r (<["proto" := p]> ∅) Hr) as [m Hm].
    assert (star_greedy (mem Dot) (String ":" ("//" +:+ r)) (after_proto l) =
              match star_greedy (mem Dot) r (after_proto l) with
              | Some m => Some m
              | None => run identity_tail l r (<["proto" := p]> ∅) accept
              end) as Hsep.
    { change ("//" +:+ r) with (String "/" (String "/" r)).
      cbn [star_greedy mem]. cbn [negb Ascii.eqb LF ascii_of_nat ascii_of_N ascii_of_pos].
      replace (after_proto l (String ":" (String "/" (String "/" r))))
        with (run identity_tail l r (<["proto" := p]> ∅) accept).
      2:{ unfold after_proto. cbn [strip_prefix]. simpl Ascii.eqb. cbn iota.
          unfold l. change (String ":" ("//" +:+ r)) with (String ":" (String "/" (String "/" r))).
          by rewrite consumed_app. }
      by destruct (star_greedy (mem Dot) r (after_proto l)). }
    rewrite re_match_unfold. fold l.
    assert (is_Some (star_greedy (mem Dot) (String ":" ("//" +:+ r)) (after_proto l)))
      as [m' Hm'].
    { rewrite Hsep. destruct (star_greedy (mem Dot) r (after_proto l)); [done|].
      by rewrite Hm. }
    unfold l at 1. rewrite (star_greedy_skip _ _ _ _ _ Hp Hm').
    by rewrite <-Hm', Hsep.
  - rewrite app_nil_l. apply re_match_unfold.
Qed.

Lemma re_match_prefix pre r :
  proto_prefix pre →
  is_line (pre +:+ r) = true →
  ∃ c, same_but "proto" c ∅
       ∧ re_match _identity_regexp (pre +:+ r) =
           match star_greedy (mem Dot) r (after_proto (pre +:+ r)) with
           | Some m => Some m
           | None => run identity_tail (pre +:+ r) r c accept
           end.
Proof.
  intros [|p] Hline.
  - exists ∅. split; [done|]. by apply (re_match_proto None).
  - exists (<["proto" := p]> ∅). split.
    + unfold same_but. by rewrite delete_insert_eq.
    + by apply (re_match_proto (Some p)).
Qed.

Lemma after_proto_rel l1 l2 s :
  orel (same_but "proto") (after_proto l1 s) (after_proto l2 s).
Proof.
  unfold after_proto. destruct (strip_prefix "://" s) as [s'|]; [|done].
  apply run_rel; [apply same_but_insert|done| |done].
  unfold same_but. by rewrite !delete_insert_eq.
Qed.

(** The labels [pre1 r] and [pre2 r] are accepted or rejected together,
    with the same groups but for [proto]. *)
Lemma re_match_prefix_rel pre1 pre2 r :
  proto_prefix pre1 → proto_prefix pre2 →
  is_line (pre1 +:+ r) = true → is_line (pre2 +:+ r) = true →
  orel (same_but "proto")
    (re_match _identity_regexp (pre1 +:+ r))
    (re_match _identity_regexp (pre2 +:+ r)).
Proof.
  intros Hpre1 Hpre2 Hl1 Hl2.
  destruct (re_match_prefix pre1 r Hpre1 Hl1) as (c1 & Hc1 & ->).
  destruct (re_match_prefix pre2 r Hpre2 Hl2) as (c2 & Hc2 & ->).
  pose proof (star_greedy_rel (same_but "proto") (mem Dot) r
                (after_proto (pre1 +:+ r)) (after_proto (pre2 +:+ r))
                (after_proto_rel _ _)) as Hstar.
  destruct (star_greedy (mem Dot) r (after_proto (pre1 +:+ r))),
    (star_greedy (mem Dot) r (after_proto (pre2 +:+ r))); try done.
  apply run_rel; [apply same_but_insert|done| |done].
  unfold same_but in *. by rewrite Hc1, Hc2.
Qed.

Lemma same_but_lookup skip m1 m2 name :
  same_but skip m1 m2 → name ≠ skip → m1 !! name = m2 !! name.
Proof.
  intros H Hne.
  rewrite <-(lookup_delete_ne m1 skip name), <-(lookup_delete_ne m2 skip name)
    by done.
  by rewrite H.
Qed.

(** Every single line is accepted. *)
Lemma line_is_accepted s :
  is_line s = true → is_Some (re_match _identity_regexp s).
Proof.
  intros H. rewrite re_match_unfold.
  destruct (star_greedy (mem Dot) s (after_proto s)); [done|].
  by apply tail_complete.
Qed.

Lemma string_to_identity_OK s id :
  string_to_identity s = OK id →
  ∃ m, re_match _identity_regexp s = Some m
       ∧ id = identity_type (truthy_items (groupdict _identity_regexp m)).
Proof.
  unfold string_to_identity.
  destruct (re_match _identity_regexp s) as [m|]; [|done].
  intros [= <-]. eauto.
Qed.

End ProtoFacts.

(** ** Parsing a canonical string again *)

Module CanonFacts.
Import Str StrFacts Matching Label ReFacts IdentityFacts ProtoFacts.

Ltac not_in_names' := cbn; set_unfold; tauto.

Ltac not_in_names :=
  cbn; rewrite !not_elem_of_cons; repeat split; first [done|apply not_elem_of_nil].

(** A pattern leaves alone the groups it does not name. *)
Lemma matches_frame r w rest c c' name :
  matches r w rest c c' → name ∉ group_names r → c' !! name = c !! name.
Proof.
  induction 1 as [| | | |name' r w rest c c' _ IH| | |r1 r2 w1 w2 rest c c1 c2 _ IH1 _ IH2];
    intros Hname; cbn [group_names] in Hname; try done.
  - apply not_elem_of_cons in Hname as [Hne Hname].
    rewrite lookup_insert_ne by done. by apply IH.
  - by apply IHmatches.
  - apply not_elem_of_app in Hname as [H1 H2].
    rewrite IH2 by done. by apply IH1.
Qed.

Lemma run_accept_frame r subject s c m name :
  run r subject s c accept = Some m →
  name ∉ group_names r →
  m !! name = c !! name.
Proof.
  intros (w & rest & c' & _ & Hm & [= <-])%run_sound Hname.
  by apply (matches_frame _ _ _ _ _ _ Hm).
Qed.

Lemma after_proto_lookup l rest m :
  after_proto l rest = Some m → m !! "proto" = Some (consumed l rest).
Proof.
  unfold after_proto. destruct (strip_prefix "://" rest); [|done].
  intros H. rewrite (run_accept_frame _ _ _ _ _ "proto" H).
  - by rewrite lookup_insert_eq.
  - not_in_names.
Qed.

Lemma after_user_lookup l start c rest m :
  after_user l start c rest = Some m → m !! "user" = Some (consumed start rest).
Proof.
  unfold after_user. destruct (strip_prefix "@" rest); [|done].
  intros H. rewrite (run_accept_frame _ _ _ _ _ "user" H).
  - by rewrite lookup_insert_eq.
  - not_in_names.
Qed.

Lemma tail_unfold l x c :
  run identity_tail l x c accept =
    match star_greedy (mem Dot) x (after_user l x c) with
    | Some m => Some m
    | None => run identity_host l x c accept
    end.
Proof. reflexivity. Qed.

Lemma is_line_app_dot w s :
  all (mem Dot) w = true → is_line (w +:+ s) = is_line s.
Proof.
  induction w as [|a w IH]; [done|]. cbn [all].
  intros [Ha Hw]%andb_true_iff. rewrite app_cons. cbn [is_line].
  cbn [mem] in Ha. apply negb_true_iff in Ha. rewrite Ha. by apply IH.
Qed.


Lemma app_eq_self p x : p +:+ x = p → x = "".
Proof.
  intros H. apply (String.app_inj p). by rewrite app_nil_r.
Qed.

Lemma star_greedy_cons_None {A} p a s (k : string → option A) :
  p a = true →
  star_greedy p (String a s) k = None →
  star_greedy p s k = None ∧ k (String a s) = None.
Proof.
  simpl. intros ->. by destruct (star_greedy p s k).
Qed.

(** No candidate for [proto] that ends after the prefix is accepted when
    the group that is matched is the one of the prefix. *)
Lemma no_later_proto o r m :
  let l := from_option (λ x, x +:+ "://") "" o +:+ r in
  re_match _identity_regexp l = Some m →
  m !! "proto" = o →
  star_greedy (mem Dot) r (after_proto l) = None
  ∧ run identity_tail l r (opt_insert "proto" o ∅) accept = Some m.
Proof.
  intros l Hm Ho.
  pose proof (re_match_proto o r (accepted_is_line _ _ Hm)) as Hrun.
  cbn zeta in Hrun. fold l in Hrun. rewrite Hm in Hrun.
  destruct (star_greedy (mem Dot) r (after_proto l)) as [m1|] eqn:E; [|done].
  exfalso. injection Hrun as ->.
  apply star_greedy_sound in E as (w & rest & -> & _ & E).
  apply after_proto_lookup in E. rewrite E in Ho.
  unfold l in Ho. rewrite <-app_assoc, consumed_app in Ho.
  destruct o as [p|]; [|done]. injection Ho as Ho. cbn [from_option] in Ho.
  rewrite app_assoc in Ho. by apply app_eq_self in Ho.
Qed.

(** An empty [proto]: the label without the separator is accepted with
    the same groups, and none for [proto]. *)
Lemma drop_empty_proto r m :
  re_match _identity_regexp ("://" +:+ r) = Some m →
  m !! "proto" = Some "" →
  ∃ m', re_match _identity_regexp r = Some m'
        ∧ same_but "proto" m m'
        ∧ m' !! "proto" = None.
Proof.
  intros Hm Ho.
  destruct (no_later_proto (Some "") r m Hm Ho) as [Hstar Htail].
  cbn [from_option opt_insert] in *. rewrite app_nil_l in *.
  rewrite re_match_unfold.
  pose proof (star_greedy_rel (same_but "proto") (mem Dot) r
                (after_proto ("://" +:+ r)) (after_proto r)
                (after_proto_rel _ _)) as Hrel.
  rewrite Hstar in Hrel.
  destruct (star_greedy (mem Dot) r (after_proto r)); [done|].
  pose proof (run_rel (same_but "proto") (same_but_insert "proto") identity_tail
                ("://" +:+ r) r r (<["proto" := ""]> ∅) ∅ accept accept eq_refl) as Hrun.
  rewrite Htail in Hrun.
  destruct (run identity_tail r r ∅ accept) as [m'|] eqn:E.
  - exists m'. split; [done|]. split.
    + apply Hrun; [|done]. unfold same_but. by rewrite delete_insert_eq.
    + rewrite (run_accept_frame _ _ _ _ _ "proto" E); [done|not_in_names].
  - exfalso. apply Hrun; [|done]. unfold same_but. by rewrite delete_insert_eq.
Qed.

Lemma after_user_rel l1 l2 start1 start2 c s :
  orel (same_but "user") (after_user l1 start1 c s) (after_user l2 start2 c s).
Proof.
  unfold after_user. destruct (strip_prefix "@" s) as [s'|]; [|done].
  apply run_rel; [apply same_but_insert|done| |done].
  unfold same_but. by rewrite !delete_insert_eq.
Qed.

(** An empty [user]: the label without the separator is accepted with
    the same groups, and none for [user]. *)
Lemma drop_empty_user o t m :
  let pre := from_option (λ x, x +:+ "://") "" o in
  re_match _identity_regexp (pre +:+ String "@" t) = Some m →
  m !! "proto" = o →
  m !! "user" = Some "" →
  ∃ m', re_match _identity_regexp (pre +:+ t) = Some m'
        ∧ same_but "user" m m'
        ∧ m' !! "user" = None.
Proof.
  intros pre Hm Ho Hu.
  set (l1 := pre +:+ String "@" t) in *. set (l2 := pre +:+ t).
  set (c := opt_insert "proto" o ∅).
  assert (c !! "user" = None) as Hc by (unfold c; by destruct o).
  destruct (no_later_proto o (String "@" t) m Hm Ho) as [Hstar1 Htail1].
  fold pre l1 c in Hstar1, Htail1.
  apply star_greedy_cons_None in Hstar1 as [Hstar1 _]; [|done].
  (* the second label is a line, with no later [proto] either *)
  pose proof (accepted_is_line _ _ Hm) as Hline1.
  assert (is_line l2 = true) as Hline2.
  { unfold l1 in Hline1. apply is_line_prefix in Hline1 as [Hpre Ht].
    unfold l2. by rewrite is_line_app_dot. }
  pose proof (re_match_proto o t Hline2) as Hrun2. cbn zeta in Hrun2.
  fold pre l2 c in Hrun2.
  pose proof (star_greedy_rel (same_but "proto") (mem Dot) t
                (after_proto l1) (after_proto l2) (after_proto_rel _ _)) as Hrel.
  rewrite Hstar1 in Hrel.
  destruct (star_greedy (mem Dot) t (after_proto l2)); [done|]. clear Hrel.
  rewrite Hrun2. clear Hrun2.
  (* the user group of the first label *)
  rewrite tail_unfold in Htail1. cbn [star_greedy mem] in Htail1.
  cbn [negb Ascii.eqb LF ascii_of_nat ascii_of_N ascii_of_pos] in Htail1.
  destruct (star_greedy (mem Dot) t (after_user l1 (String "@" t) c)) as [m1|] eqn:E1.
  { exfalso. injection Htail1 as ->.
    apply star_greedy_sound in E1 as (w & rest & -> & _ & E1).
    apply after_user_lookup in E1. rewrite E1 in Hu.
    change (String "@" (w +:+ rest)) with (String "@" w +:+ rest) in Hu.
    by rewrite consumed_app in Hu. }
  assert (run identity_host l1 t (<["user" := ""]> c) accept = Some m) as Hhost1.
  { unfold after_user in Htail1. cbn [strip_prefix] in Htail1.
    simpl Ascii.eqb in Htail1. cbn iota in Htail1.
    change (String "@" t) with ("" +:+ String "@" t) in Htail1 at 1.
    rewrite consumed_app in Htail1.
    destruct (run identity_host l1 t (<["user" := ""]> c) accept) as [m1|]; [done|].
    exfalso.
    rewrite (run_accept_frame _ _ _ _ _ "user" Htail1) in Hu by not_in_names.
    by rewrite Hc in Hu. }
  (* the second label *)
  rewrite tail_unfold.
  pose proof (star_greedy_rel (same_but "user") (mem Dot) t
                (after_user l1 (String "@" t) c) (after_user l2 t c)
                (after_user_rel _ _ _ _ _)) as Hrel.
  rewrite E1 in Hrel.
  destruct (star_greedy (mem Dot) t (after_user l2 t c)); [done|]. clear Hrel.
  pose proof (run_rel (same_but "user") (same_but_insert "user") identity_host
                l1 l2 t (<["user" := ""]> c) c accept accept eq_refl) as Hrun.
  rewrite Hhost1 in Hrun.
  destruct (run identity_host l2 t c accept) as [m'|] eqn:E2.
  - exists m'. split; [done|]. split.
    + apply Hrun; [|done]. unfold same_but. by rewrite delete_insert_eq.
    + rewrite (run_accept_frame _ _ _ _ _ "user" E2); [done|not_in_names].
  - exfalso. apply Hrun; [|done]. unfold same_but. by rewrite delete_insert_eq.
Qed.

(** *** A line feed at the end changes nothing *)

Lemma take_app_le n s t :
  (n ≤ String.length s)%nat → take n (s +:+ t) = take n s.
Proof.
  revert n. induction s as [|a s IH]; intros [|n] Hn; simpl in *; try done; try lia.
  rewrite IH; [done|lia].
Qed.

Lemma consumed_LF s s' : consumed (s +:+ lf) (s' +:+ lf) = consumed s s'.
Proof.
  unfold consumed. rewrite !length_app. simpl.
  replace (String.length s + 1 - (String.length s' + 1))%nat
    with (String.length s - String.length s')%nat by lia.
  apply take_app_le. lia.
Qed.

Lemma strip_prefix_LF l s :
  all (mem Dot) l = true →
  strip_prefix l (s +:+ lf) = (λ x, x +:+ lf) <$> strip_prefix l s.
Proof.
  revert s. induction l as [|a l IH]; intros s Hl; [done|].
  cbn [all] in Hl. apply andb_true_iff in Hl as [Ha Hl].
  destruct s as [|b s].
  - rewrite app_nil_l. cbn [strip_prefix]. cbn [mem] in Ha.
    apply negb_true_iff in Ha. by rewrite Ha.
  - rewrite app_cons. cbn [strip_prefix]. destruct (Ascii.eqb a b); [by apply IH|done].
Qed.

Lemma strip_prefix_dot l s s' :
  strip_prefix l s = Some s' → all (mem Dot) s = true → all (mem Dot) s' = true.
Proof.
  intros ->%strip_prefix_Some. rewrite all_app. by intros [_ ?]%andb_true_iff.
Qed.

Lemma at_end_LF s : all (mem Dot) s = true → at_end (s +:+ lf) = at_end s.
Proof.
  destruct s as [|a s]; [done|]. cbn [all mem].
  intros [Ha _]%andb_true_iff. apply negb_true_iff in Ha.
  rewrite app_cons. cbn [at_end]. rewrite Ha. by destruct s.
Qed.

Section LineFeed.
Context {A : Type} (p : ascii → bool).
Hypothesis p_LF : p LF = false.

Lemma star_greedy_LF s (k1 k2 : string → option A) :
  all (mem Dot) s = true →
  (∀ s', all (mem Dot) s' = true → k1 (s' +:+ lf) = k2 s') →
  star_greedy p (s +:+ lf) k1 = star_greedy p s k2.
Proof using p_LF.
  intros Hs Hk. induction s as [|a s IH].
  - rewrite app_nil_l. cbn [star_greedy]. rewrite p_LF. by apply (Hk "").
  - pose proof Hs as Has. cbn [all] in Hs. apply andb_true_iff in Hs as [_ Hs].
    rewrite app_cons. cbn [star_greedy]. rewrite (IH Hs).
    change (String a (s +:+ lf)) with (String a s +:+ lf). by rewrite (Hk _ Has).
Qed.

Lemma star_lazy_LF s (k1 k2 : string → option A) :
  all (mem Dot) s = true →
  (∀ s', all (mem Dot) s' = true → k1 (s' +:+ lf) = k2 s') →
  star_lazy p (s +:+ lf) k1 = star_lazy p s k2.
Proof using p_LF.
  intros Hs Hk. induction s as [|a s IH].
  - rewrite app_nil_l. cbn [star_lazy]. rewrite p_LF.
    change lf with ("" +:+ lf) at 1. by rewrite (Hk "").
  - pose proof Hs as Has. cbn [all] in Hs. apply andb_true_iff in Hs as [_ Hs].
    rewrite app_cons. cbn [star_lazy].
    change (String a (s +:+ lf)) with (String a s +:+ lf). rewrite (Hk _ Has).
    by rewrite (IH Hs).
Qed.
End LineFeed.

Lemma run_LF r subject1 subject2 s c k1 k2 :
  bos_free r = true →
  lf_free r = true →
  all (mem Dot) s = true →
  (∀ s' c', all (mem Dot) s' = true → k1 (s' +:+ lf) c' = k2 s' c') →
  run r subject1 (s +:+ lf) c k1 = run r subject2 s c k2.
Proof.
  revert s c k1 k2.
  induction r as [| |l|cs g|name r IH|r IH|r1 IH1 r2 IH2];
    intros s c k1 k2 Hbos Hlf Hs Hk; cbn [run bos_free lf_free] in *.
  - done.
  - rewrite (at_end_LF _ Hs). destruct (at_end s); [by apply Hk|done].
  - rewrite (strip_prefix_LF _ _ Hlf).
    destruct (strip_prefix l s) as [s'|] eqn:E; [|done]. cbn [fmap option_fmap option_map].
    apply Hk. by apply (strip_prefix_dot _ _ _ E).
  - destruct g; [apply star_greedy_LF|apply star_lazy_LF];
      try (by destruct cs); try done; intros s' Hs'; by apply Hk.
  - apply IH; [done..|]. intros s' c' Hs'. rewrite consumed_LF. by apply Hk.
  - rewrite (IH s c k1 k2 Hbos Hlf Hs Hk).
    destruct (run r subject2 s c k2); [done|]. by apply Hk.
  - apply andb_true_iff in Hbos as [Hb1 Hb2]. apply andb_true_iff in Hlf as [Hl1 Hl2].
    apply IH1; [done..|]. intros s' c' Hs'. by apply IH2.
Qed.

Lemma re_match_LF x :
  all (mem Dot) x = true →
  re_match _identity_regexp (x +:+ lf) = re_match _identity_regexp x.
Proof.
  intros Hx. rewrite !re_match_unfold.
  assert (star_greedy (mem Dot) (x +:+ lf) (after_proto (x +:+ lf))
          = star_greedy (mem Dot) x (after_proto x)) as ->.
  { apply star_greedy_LF; [done..|]. intros s' Hs'. unfold after_proto.
    rewrite strip_prefix_LF by done.
    destruct (strip_prefix "://" s') as [s''|] eqn:E; [|done].
    cbn [fmap option_fmap option_map]. rewrite consumed_LF.
    apply run_LF; [done..| |done]. by apply (strip_prefix_dot _ _ _ E). }
  destruct (star_greedy (mem Dot) x (after_proto x)); [done|].
  by apply run_LF.
Qed.

(** *** The canonical string of an accepted label *)

Lemma keep_truthy_idemp o : keep_truthy (keep_truthy o) = keep_truthy o.
Proof. by destruct o as [[|]|]. Qed.

(** The label without its final line feed and without the separators of
    an empty [proto] and of an empty [user] is accepted, with the same
    groups but for the empty ones. *)
Lemma canonical_label_accepted s m p u h po pa tail :
  re_match _identity_regexp s = Some m →
  s = label_text p u h po pa +:+ tail →
  at_end tail = true →
  m = label_groups p u h po pa →
  well_shaped p u h po pa →
  ∃ m', re_match _identity_regexp
          (label_text (keep_truthy p) (keep_truthy u) h po pa) = Some m'
        ∧ m' !! "proto" = keep_truthy p
        ∧ m' !! "user" = keep_truthy u
        ∧ m' !! "host" = Some h ∧ m' !! "port" = po ∧ m' !! "path" = pa.
Proof.
  intros Hm -> Ht -> Hw.
  destruct (label_groups_lookup p u h po pa) as (Ep & Eu & Eh & Epo & Epa).
  cbn zeta in *.
  (* the final line feed *)
  assert (re_match _identity_regexp (label_text p u h po pa)
          = Some (label_groups p u h po pa)) as H1.
  { destruct (at_end_cases _ Ht) as [->| ->].
    - by rewrite app_nil_r in Hm.
    - by rewrite re_match_LF in Hm by (by apply label_text_dot). }
  clear Hm Ht tail.
  (* an empty [proto] *)
  assert (∃ m2, re_match _identity_regexp (label_text (keep_truthy p) u h po pa)
                = Some m2
                ∧ m2 !! "proto" = keep_truthy p
                ∧ ∀ name, name ≠ "proto" →
                    m2 !! name = label_groups p u h po pa !! name)
    as (m2 & H2 & Ep2 & Hsame2).
  { destruct p as [[|a p]|].
    - destruct (drop_empty_proto (label_text None u h po pa) _ H1 Ep)
        as (m2 & H2 & Hsame & Ep2).
      exists m2. split; [done|]. split; [done|].
      intros name Hname. symmetry. by apply (same_but_lookup "proto").
    - by exists (label_groups (Some (String a p)) u h po pa).
    - by exists (label_groups None u h po pa). }
  rewrite <-(Hsame2 "user") in Eu by done. rewrite <-(Hsame2 "host") in Eh by done.
  rewrite <-(Hsame2 "port") in Epo by done. rewrite <-(Hsame2 "path") in Epa by done.
  clear H1 Ep Hsame2.
  (* an empty [user] *)
  destruct u as [[|a u]|].
  - destruct (drop_empty_user (keep_truthy p) (h +:+ (from_option (λ x, ":" +:+ x) "" po
                 +:+ default "" pa)) m2 H2 Ep2 Eu) as (m3 & H3 & Hsame & Eu3).
    exists m3. split; [done|].
    rewrite <-(same_but_lookup "user" m2 m3 "proto"),
      <-(same_but_lookup "user" m2 m3 "host"),
      <-(same_but_lookup "user" m2 m3 "port"),
      <-(same_but_lookup "user" m2 m3 "path") by done.
    done.
  - by exists m2.
  - by exists m2.
Qed.

(** Parsing the canonical string of an accepted label gives its identity
    again, unless the port of the label is empty. *)
Lemma reparse_canonical s m :
  re_match _identity_regexp s = Some m →
  m !! "port" ≠ Some "" →
  ∃ id, string_to_identity s = OK id
        ∧ string_to_identity (identity_to_string id) = OK id.
Proof.
  intros Hm Hport.
  destruct (identity_match_inv _ _ Hm)
    as (p & u & h & po & pa & tail & Hs & Ht & Hgroups & Hw).
  destruct (canonical_label_accepted _ _ _ _ _ _ _ _ Hm Hs Ht Hgroups Hw)
    as (m' & Hm' & Ep & Eu & Eh & Epo & Epa).
  subst m.
  destruct (label_groups_lookup p u h po pa) as (_ & _ & _ & Epo0 & _).
  cbn zeta in Epo0. rewrite Epo0 in Hport.
  exists (identity_of_parts p u h po pa).
  split; [by apply string_to_identity_parts|].
  assert (identity_to_string (identity_of_parts p u h po pa)
          = label_text (keep_truthy p) (keep_truthy u) h po pa) as ->.
  { rewrite identity_to_string_eq. cbn [proto user host port path identity_of_parts].
    rewrite !getattr_keep_truthy. unfold label_text.
    by destruct p as [[|]|], u as [[|]|], po as [[|]|]. }
  unfold string_to_identity. rewrite Hm'. f_equal.
  unfold identity_type, identity_of_parts.
  rewrite !kwargs_lookup by not_in_names'.
  by rewrite Ep, Eu, Eh, Epo, Epa, !keep_truthy_idemp.
Qed.

End CanonFacts.

(** ** Identity labels *)

Module IdentityClaims.
Import Str StrFacts Matching Label ReFacts IdentityFacts ProtoFacts CanonFacts.

(** C5 (counterexample).  The label ["host:22:"] is accepted, with host
    ["host:22"] and an empty port that the identity does not keep; its
    canonical string is ["host:22"], which is not the label, and parsing
    that again gives another identity: host ["host"], port ["22"]. *)
Lemma roundtrip_counterexample :
  string_to_identity "host:22:"
    = OK (mkIdentity None None (Some "host:22") None None 0)
  ∧ identity_to_string (mkIdentity None None (Some "host:22") None None 0)
    = "host:22"
  ∧ string_to_identity "host:22"
    = OK (mkIdentity None None (Some "host") (Some "22") None 0)
  ∧ ¬ (∀ s id,
        string_to_identity s = OK id →
        identity_to_string id = s
        ∧ string_to_identity (identity_to_string id) = OK id).
Proof.
  split; [by vm_compute|]. split; [by vm_compute|]. split; [by vm_compute|].
  intros H.
  destruct (H "host:22:" (mkIdentity None None (Some "host:22") None None 0))
    as [Hs _]; [by vm_compute|].
  by vm_compute in Hs.
Qed.

(** The separator of an empty [proto] or [user] and a final line feed are
    dropped too: the string round trip is not exact on such labels, though
    parsing the canonical string gives the same identity. *)
Lemma separators_dropped :
  let canonical s := identity ← string_to_identity s; mret (identity_to_string identity) in
  canonical "://host" = OK "host"
  ∧ canonical "@host" = OK "host"
  ∧ canonical ("host" +:+ lf) = OK "host".
Proof. repeat split; by vm_compute. Qed.

(** C5 (amended).  For every label that the pattern matches with a port
    group that is not empty (no [:] left without a port), parsing is
    idempotent through canonicalization:
    [string_to_identity(identity_to_string(string_to_identity(s)))
     == string_to_identity(s)].
    The string round trip is exact,
    [identity_to_string(string_to_identity(s)) == s], when moreover
    neither the [proto] nor the [user] group is empty and the label does
    not end in a line feed. *)
Theorem roundtrip s m :
  re_match _identity_regexp s = Some m →
  m !! "port" ≠ Some "" →
  ∃ id, string_to_identity s = OK id
        ∧ string_to_identity (identity_to_string id) = string_to_identity s
        ∧ (m !! "proto" ≠ Some "" →
           m !! "user" ≠ Some "" →
           ends_with_LF s = false →
           identity_to_string id = s).
Proof.
  intros Hm Hpo.
  destruct (reparse_canonical s m Hm Hpo) as (id & Hid & Hre).
  exists id. split; [done|]. split; [by rewrite Hid|].
  intros Hp Hu Hlf.
  destruct (identity_match_inv _ _ Hm)
    as (p & u & h & po & pa & tail & Hs & Ht & -> & Hw).
  destruct (label_groups_lookup p u h po pa) as (Ep & Eu & _ & Epo & _).
  cbn zeta in *. rewrite Ep in Hp. rewrite Eu in Hu. rewrite Epo in Hpo.
  assert (tail = "") as ->.
  { destruct (at_end_cases _ Ht) as [->| ->]; [done|].
    by rewrite Hs, ends_with_LF_app in Hlf. }
  rewrite app_nil_r in Hs.
  rewrite (string_to_identity_parts _ _ _ _ _ _ Hm) in Hid. injection Hid as <-.
  rewrite identity_to_string_eq. cbn [proto user host port path identity_of_parts].
  rewrite !getattr_keep_truthy, Hs. unfold label_text.
  by destruct p as [[|]|], u as [[|]|], po as [[|]|].
Qed.

(** The label of the specification's example is its own canonical
    string. *)
Lemma roundtrip_witness :
  let s := "ssh://alice@git.example.com:22/repo" in
  ∃ id, string_to_identity s = OK id
        ∧ string_to_identity (identity_to_string id) = string_to_identity s
        ∧ identity_to_string id = s.
Proof.
  destruct (roundtrip "ssh://alice@git.example.com:22/repo"
              (label_groups (Some "ssh") (Some "alice") "git.example.com"
                 (Some "22") (Some "/repo")))
    as (id & Hid & Hre & Hexact); [by vm_compute..|].
  exists id. split; [done|]. split; [done|]. apply Hexact; by vm_compute.
Defined.

(** C9 (counterexample).  The empty label has no host to assign, yet
    [string_to_identity] does not fail on it: it returns the identity
    with every field unset. *)
Lemma empty_host_counterexample :
  re_match _identity_regexp "" = Some {["host" := ""]}
  ∧ string_to_identity "" = OK (mkIdentity None None None None None 0)
  ∧ ¬ (∃ e, string_to_identity "" = Raise e).
Proof. split; [by vm_compute|]. split; [by vm_compute|]. by intros [e He]. Qed.

(** C9 (amended).  [string_to_identity] fails, with [AttributeError],
    exactly on the labels that the pattern does not match: those with a
    line feed before their last character.  On every other label the
    [host] group takes part in the match, and the identity is returned
    with [host] set to its text, or unset when that text is empty: no
    error is raised for a missing host. *)
Theorem string_to_identity_host s :
  if is_line s then
    ∃ m id h, re_match _identity_regexp s = Some m
              ∧ m !! "host" = Some h
              ∧ string_to_identity s = OK id
              ∧ host id = if truthy h then Some h else None
  else
    re_match _identity_regexp s = None
    ∧ string_to_identity s = Raise AttributeError.
Proof.
  destruct (is_line s) eqn:Hline.
  - destruct (line_is_accepted s Hline) as [m E].
    destruct (identity_match_inv _ _ E)
      as (p & u & h & po & pa & tail & Hs & Ht & -> & Hw).
    exists (label_groups p u h po pa), (identity_of_parts p u h po pa), h.
    destruct (label_groups_lookup p u h po pa) as (_ & _ & Eh & _ & _).
    split; [done|]. split; [done|]. split; [by apply string_to_identity_parts|done].
  - assert (re_match _identity_regexp s = None) as E.
    { destruct (re_match _identity_regexp s) as [m|] eqn:E; [|done].
      apply accepted_is_line in E. congruence. }
    split; [done|]. unfold string_to_identity. by rewrite E.
Qed.

(** C10 (counterexample).  The label ["h:_"] is accepted with port
    ["_"], and the underscore is not alphanumeric. *)
Lemma port_counterexample :
  string_to_identity "h:_"
    = OK (mkIdentity None None (Some "h") (Some "_") None 0)
  ∧ all is_alnum "_" = false.
Proof. split; by vm_compute. Qed.

(** C10 (amended).  For every label that the identity parser accepts,
    a port that is set in the resulting identity is not empty and
    consists only of the characters that [\w] matches: alphanumeric
    characters and the underscore.  The pattern is a [str] pattern
    without [re.ASCII], so that alphanumeric is meant as [str.isalnum]
    means it: a port may hold a letter or a digit that is not ASCII. *)
Theorem port_word_characters s id p :
  string_to_identity s = OK id →
  port id = Some p →
  p ≠ "" ∧ all is_word p = true.
Proof.
  intros H Hp.
  destruct (string_to_identity_inv _ _ H)
    as (pr & u & h & po & pa & tail & _ & _ & _ & Hw & ->).
  destruct Hw as (_ & _ & _ & Hpo & _).
  cbn [port identity_of_parts] in Hp.
  destruct po as [x|]; [|done]. simpl in Hp.
  destruct (truthy x) eqn:Ex; [|done]. injection Hp as <-.
  split; [by apply truthy_true|by apply Hpo].
Qed.

(** The label [h:] followed by the letter U+00E9 (e with acute accent)
    has that letter as its port. *)
Lemma port_latin1_letter :
  let e_acute := String (ascii_of_nat 233) "" in
  string_to_identity ("h:" +:+ e_acute)
    = OK (mkIdentity None None (Some "h") (Some e_acute) None 0)
  ∧ all is_alnum e_acute = true
  ∧ all is_ascii e_acute = false.
Proof. by vm_compute. Qed.

Lemma port_word_characters_witness :
  "22" ≠ "" ∧ all is_word "22" = true.
Proof.
  apply (port_word_characters "ssh://alice@git.example.com:22/repo"
           (mkIdentity (Some "ssh") (Some "alice") (Some "git.example.com")
              (Some "22") (Some "/repo") 0) "22");
    by vm_compute.
Defined.

End IdentityClaims.

Module ProtoClaims.
Import Str StrFacts Matching Label ReFacts IdentityFacts ProtoFacts.

(** C6.  [get_identity] sets the [proto] field to ['ssh'] whatever the
    label says.  Hence two labels that differ only in their protocol
    prefix (a prefix [p://], or none) and that the parser accepts give
    the same identity, so the same canonical string and the same derived
    path. *)
Theorem get_identity_proto pre1 pre2 r id1 id2 :
  proto_prefix pre1 →
  proto_prefix pre2 →
  get_identity (pre1 +:+ r) = OK id1 →
  get_identity (pre2 +:+ r) = OK id2 →
  proto id1 = Some "ssh"
  ∧ proto id2 = Some "ssh"
  ∧ id1 = id2
  ∧ identity_to_string id1 = identity_to_string id2
  ∧ ∀ hashfunc, _get_address hashfunc id1 = _get_address hashfunc id2.
Proof.
  intros Hpre1 Hpre2 H1 H2. unfold get_identity in *.
  destruct (string_to_identity (pre1 +:+ r)) as [id1'|] eqn:E1; [|done].
  destruct (string_to_identity (pre2 +:+ r)) as [id2'|] eqn:E2; [|done].
  injection H1 as <-. injection H2 as <-.
  apply string_to_identity_OK in E1 as (m1 & Hm1 & ->).
  apply string_to_identity_OK in E2 as (m2 & Hm2 & ->).
  pose proof (re_match_prefix_rel pre1 pre2 r Hpre1 Hpre2
                (accepted_is_line _ _ Hm1) (accepted_is_line _ _ Hm2)) as Hrel.
  rewrite Hm1, Hm2 in Hrel. simpl in Hrel.
  assert (set_proto "ssh" (identity_type (truthy_items (groupdict _identity_regexp m1)))
          = set_proto "ssh" (identity_type (truthy_items (groupdict _identity_regexp m2))))
    as Heq.
  { unfold set_proto, identity_type. cbn [user host port path index].
    rewrite !kwargs_lookup by (cbn; set_solver).
    by rewrite !(same_but_lookup "proto" m1 m2) by done. }
  rewrite Heq. done.
Qed.

(** A label with the prefix [https://] and the same label with no
    prefix: one identity, with the canonical string of [ssh://]. *)
Lemma get_identity_proto_witness :
  let id := mkIdentity (Some "ssh") (Some "alice") (Some "git.example.com")
              (Some "22") (Some "/repo") 0 in
  get_identity "https://alice@git.example.com:22/repo" = OK id
  ∧ get_identity "alice@git.example.com:22/repo" = OK id
  ∧ proto id = Some "ssh"
  ∧ identity_to_string id = "ssh://alice@git.example.com:22/repo".
Proof.
  intros id.
  destruct (get_identity_proto "https://" "" "alice@git.example.com:22/repo"
              id id (with_proto "https") no_proto)
    as (Hp & _ & _ & _ & _); [by vm_compute..|].
  split; [by vm_compute|]. split; [by vm_compute|]. split; [done|by vm_compute].
Defined.

End ProtoClaims.

Module SignatureWitnesses.
Import SignatureClaims Toy.

Lemma sign_rejects_mismatch_witness :
  toy_sign (mkSigned other_key well_formed) = Raise AssertionError.
Proof.
  eapply (sign_rejects_mismatch Toy.decompress_pubkey
            Toy.serialize_verifying_key Toy.parse_pubkey Toy.read_frame
            "ed25519" (Toy.sign_identity (mkSigned other_key well_formed))
            Toy.label Toy.challenge).
  - by vm_compute.
  - vm_compute. reflexivity.
  - vm_compute. reflexivity.
  - reflexivity.
  - reflexivity.
  - reflexivity.
  - vm_compute. reflexivity.
  - vm_compute. reflexivity.
  - left. by vm_compute.
Defined.

Lemma sign_rejects_malformed_witness :
  toy_sign (mkSigned Toy.key bad_prefix) = Raise AssertionError.
Proof.
  eapply (sign_rejects_malformed Toy.decompress_pubkey
            Toy.serialize_verifying_key Toy.parse_pubkey Toy.read_frame
            "ed25519" (Toy.sign_identity (mkSigned Toy.key bad_prefix))
            Toy.label Toy.challenge).
  - by vm_compute.
  - vm_compute. reflexivity.
  - vm_compute. reflexivity.
  - reflexivity.
  - reflexivity.
  - reflexivity.
  - vm_compute. reflexivity.
  - vm_compute. reflexivity.
  - by vm_compute.
  - by vm_compute.
  - right. by vm_compute.
Defined.

Lemma sign_returns_tail_witness :
  toy_sign (mkSigned Toy.key well_formed) = OK (replicate 64 x01)
  ∧ length (replicate 64 x01) = 64%nat
  ∧ well_formed = x00 :: replicate 64 x01.
Proof.
  eapply (sign_returns_tail Toy.decompress_pubkey
            Toy.serialize_verifying_key Toy.parse_pubkey Toy.read_frame
            "ed25519" (Toy.sign_identity (mkSigned Toy.key well_formed))
            Toy.label Toy.challenge)
    with (result := mkSigned Toy.key well_formed).
  - by vm_compute.
  - vm_compute. reflexivity.
  - vm_compute. reflexivity.
  - reflexivity.
  - reflexivity.
  - reflexivity.
  - vm_compute. reflexivity.
  - vm_compute. reflexivity.
  - by vm_compute.
  - by vm_compute.
  - by vm_compute.
  - by vm_compute.
Defined.

(** C2 (counterexample).  A signature of 65 bytes whose first byte is 1
    is rejected with [AssertionError], the very result of a request in
    which the device answered with another key: no caller can read a
    format error off the first and a protocol mismatch off the
    second. *)
Lemma malformed_signature_counterexample :
  toy_sign (mkSigned Toy.key bad_prefix) = Raise AssertionError
  ∧ toy_sign (mkSigned other_key well_formed) = Raise AssertionError
  ∧ ¬ ∃ read : SpecErrors.reading,
        read (toy_sign (mkSigned Toy.key bad_prefix)) = SpecErrors.FormatError
        ∧ read (toy_sign (mkSigned other_key well_formed))
          = SpecErrors.ProtocolMismatchError.
Proof.
  assert (toy_sign (mkSigned Toy.key bad_prefix) = Raise AssertionError) as E1
    by by vm_compute.
  assert (toy_sign (mkSigned other_key well_formed) = Raise AssertionError) as E2
    by by vm_compute.
  split; [done|]. split; [done|].
  intros (read & H1 & H2). rewrite E1 in H1. rewrite E2 in H2. congruence.
Qed.

(** C3 (counterexample).  A request in which the device answered with
    another key and a well-formed signature fails with
    [AssertionError], the very result of a request whose challenge has
    a byte left over after its last frame: no caller can read a protocol
    mismatch off the first and a format error off the second. *)
Lemma key_mismatch_counterexample :
  let sign_with answer :=
    sign_ssh_challenge VerifyingKey decompress_pubkey serialize_verifying_key
      parse_pubkey read_frame "ed25519" (Toy.sign_identity answer) Toy.label in
  sign_with (mkSigned other_key well_formed) Toy.challenge = Raise AssertionError
  ∧ sign_with (mkSigned Toy.key well_formed) (Toy.challenge ++ [xff])
    = Raise AssertionError
  ∧ ¬ ∃ read : SpecErrors.reading,
        read (sign_with (mkSigned other_key well_formed) Toy.challenge)
          = SpecErrors.ProtocolMismatchError
        ∧ read (sign_with (mkSigned Toy.key well_formed) (Toy.challenge ++ [xff]))
          = SpecErrors.FormatError.
Proof.
  intros sign_with.
  assert (sign_with (mkSigned other_key well_formed) Toy.challenge
          = Raise AssertionError) as E1 by by vm_compute.
  assert (sign_with (mkSigned Toy.key well_formed) (Toy.challenge ++ [xff])
          = Raise AssertionError) as E2 by by vm_compute.
  split; [done|]. split; [done|].
  intros (read & H1 & H2). rewrite E1 in H1. rewrite E2 in H2. congruence.
Qed.

Lemma parse_exhausts_input_witness :
  let parse := _parse_ssh_blob Toy.VerifyingKey Toy.parse_pubkey Toy.read_frame in
  parse (Toy.challenge ++ [xff]) = Raise AssertionError
  ∧ parse (take 10 Toy.challenge) = Raise ShortRead.
Proof.
  intros parse.
  edestruct (BlobClaims.parse_exhausts_input Toy.parse_pubkey 4 Toy.be_size
               Toy.challenge) as (_ & Htrailing & Htruncated).
  - lia.
  - by vm_compute.
  - vm_compute. reflexivity.
  - split; [by apply Htrailing|]. apply Htruncated. vm_compute. lia.
Defined.

End SignatureWitnesses.

(** * Further properties of the client *)

(** ** The firmware version gate *)

Module FirmwareFacts.
Import Firmware.

(** The comparison with [MIN_VERSION], in arithmetic *)
Lemma list_lt_min major minor patch :
  list_lt [major; minor; patch] MIN_VERSION = true
  ↔ major < 1 ∨ (major = 1 ∧ (minor < 3 ∨ (minor = 3 ∧ patch < 4))).
Proof.
  unfold MIN_VERSION. cbn [list_lt].
  destruct (Z.eqb_spec major 1) as [->|]; [|rewrite Z.ltb_lt; lia].
  destruct (Z.eqb_spec minor 3) as [->|]; [|rewrite Z.ltb_lt; lia].
  destruct (Z.eqb_spec patch 4) as [->|]; [|rewrite Z.ltb_lt; lia].
  split; [done|lia].
Qed.

(** X1.  [Client.__init__] accepts the device exactly when its firmware
    version is 1.3.4 or later, in the order major, minor, patch; for any
    older version it raises [ValueError] with the message that names
    v1.3.4, whatever the version of the device is. *)
Theorem init_version_gate f :
  (__init__ f = Connected
   ↔ 1 < major_version f
     ∨ (major_version f = 1
        ∧ (3 < minor_version f
           ∨ (minor_version f = 3 ∧ 4 ≤ patch_version f))))
  ∧ (__init__ f ≠ Connected →
     __init__ f = ValueError "Please upgrade your TREZOR to v1.3.4+ firmware").
Proof.
  unfold __init__.
  pose proof (list_lt_min (major_version f) (minor_version f) (patch_version f)) as H.
  destruct (list_lt [major_version f; minor_version f; patch_version f] MIN_VERSION).
  - split; [|intros _; by vm_compute].
    split; [done|]. intros Hv. assert (true = true) as Ht by done.
    apply H in Ht. lia.
  - split; [|done]. split; [|done]. intros _.
    destruct (decide (1 < major_version f
                      ∨ (major_version f = 1
                         ∧ (3 < minor_version f
                            ∨ (minor_version f = 3 ∧ 4 ≤ patch_version f)))))
      as [|Hn]; [done|].
    assert (false = true) as Hf; [|done]. apply H. lia.
Qed.

End FirmwareFacts.

(** ** Address derivation: errors, bits, labels *)

Module AddressMore.
Import Str StrFacts Matching Label Encoding ReFacts IdentityFacts AddressFacts.

Lemma encode_ascii_not_all s :
  all is_ascii s = false → encode_ascii s = Raise UnicodeError.
Proof.
  induction s as [|a s IH]; [done|]. cbn [all encode_ascii].
  destruct (is_ascii a); [|done]. cbn [andb]. intros H. by rewrite (IH H).
Qed.

(** [_get_address], case by case *)
Lemma get_address_eq hashfunc identity :
  let canon := identity_to_string identity in
  let digest := hashfunc (le_bytes32 (index identity) ++ ascii_bytes canon) in
  _get_address hashfunc identity =
    if negb ((0 <=? index identity) && (index identity <? 2 ^ 32)) then
      Raise StructError
    else if negb (all is_ascii canon) then Raise UnicodeError
    else if (length digest <? 16)%nat then Raise ShortRead
    else OK (Z.lor 0x80000000 <$>
               [13; digest_word digest 0; digest_word digest 1;
                digest_word digest 2; digest_word digest 3]).
Proof.
  intros canon digest. unfold _get_address.
  destruct ((0 <=? index identity) && (index identity <? 2 ^ 32)) eqn:Hindex.
  - apply andb_true_iff in Hindex as [H0%Z.leb_le H1%Z.ltb_lt].
    rewrite (struct_pack_L_range _ (conj H0 H1)). cbn [negb mbind result_bind].
    fold canon. destruct (all is_ascii canon) eqn:Hascii.
    + rewrite (encode_ascii_all _ Hascii). cbn [negb mbind result_bind].
      fold digest. destruct (length digest <? 16)%nat eqn:Hlen.
      * apply Nat.ltb_lt in Hlen.
        unfold Util.recv_le32, Util.recv, mbind at 2, io_bind.
        replace (4 * 4 <=? length digest)%nat with false
          by (symmetry; apply Nat.leb_gt; simpl; lia).
        reflexivity.
      * apply Nat.ltb_ge in Hlen. by rewrite (recv_le32_digest _ Hlen).
    + by rewrite (encode_ascii_not_all _ Hascii).
  - unfold struct_pack_L. by rewrite Hindex.
Qed.

(** X2.  [_get_address] fails in three ways only, tried in this order: an
    index outside [0 .. 2^32-1] ([struct.pack]), a canonical string that
    is not pure ASCII ([encode]), a digest of fewer than 16 bytes (the
    bounded read); in every other case it returns the five hardened
    elements. *)
Theorem get_address_failures hashfunc identity :
  let canon := identity_to_string identity in
  let digest := hashfunc (le_bytes32 (index identity) ++ ascii_bytes canon) in
  _get_address hashfunc identity =
    if negb ((0 <=? index identity) && (index identity <? 2 ^ 32)) then
      Raise StructError
    else if negb (all is_ascii canon) then Raise UnicodeError
    else if (length digest <? 16)%nat then Raise ShortRead
    else OK (Z.lor 0x80000000 <$>
               [13; digest_word digest 0; digest_word digest 1;
                digest_word digest 2; digest_word digest 3]).
Proof. apply get_address_eq. Qed.

Lemma digest_word_range digest i : 0 ≤ digest_word digest i < 2 ^ 32.
Proof.
  unfold digest_word.
  pose proof (byte_to_Z_range (default x00 (digest !! (4 * i + 0)%nat))).
  pose proof (byte_to_Z_range (default x00 (digest !! (4 * i + 1)%nat))).
  pose proof (byte_to_Z_range (default x00 (digest !! (4 * i + 2)%nat))).
  pose proof (byte_to_Z_range (default x00 (digest !! (4 * i + 3)%nat))).
  lia.
Qed.

Lemma land_hardened_low w : 0 ≤ w < 2 ^ 31 → Z.land hardened w = 0.
Proof.
  intros Hw. apply Z.bits_inj'. intros n Hn.
  rewrite Z.land_spec, Z.bits_0. change hardened with (2 ^ 31).
  rewrite Z.pow2_bits_eqb by lia.
  destruct (Z.eqb_spec 31 n) as [<-|]; [|done]. cbn [andb].
  destruct (Z.eq_dec w 0) as [->|]; [done|].
  apply Z.bits_above_log2; [lia|]. apply Z.log2_lt_pow2; lia.
Qed.

Lemma hardened_low_bits w :
  0 ≤ w < 2 ^ 32 → Z.lor hardened w = 2 ^ 31 + w mod 2 ^ 31.
Proof.
  intros Hw.
  assert (0 ≤ w mod 2 ^ 31 < 2 ^ 31) as Hlow by (apply Z.mod_pos_bound; lia).
  assert (Z.lor hardened (w mod 2 ^ 31) = 2 ^ 31 + w mod 2 ^ 31) as Hsum.
  { rewrite <-Z.lxor_lor by (by apply land_hardened_low).
    rewrite <-Z.add_nocarry_lxor by (by apply land_hardened_low). done. }
  destruct (Z.lt_ge_cases w (2 ^ 31)) as [Hlt|Hge].
  - rewrite Z.mod_small in * by lia. done.
  - assert (w = 2 ^ 31 + w mod 2 ^ 31) as Hsplit.
    { rewrite (Z.div_mod w (2 ^ 31)) at 1 by lia.
      assert (w / 2 ^ 31 = 1) as ->; [|lia].
      symmetry. apply Z.div_unique with (r := w - 2 ^ 31); lia. }
    rewrite Hsplit at 1. rewrite <-Hsum, Z.lor_assoc, Z.lor_diag. done.
Qed.

(** X3.  Hardening keeps the low 31 bits of each digest word and loses
    its top bit: a derived path is [0x8000000D] followed by
    [2^31 + (word mod 2^31)] for the first four little-endian words of
    the digest. *)
Theorem hardening_keeps_low_bits hashfunc identity address_n :
  let digest :=
    hashfunc (le_bytes32 (index identity)
              ++ ascii_bytes (identity_to_string identity)) in
  _get_address hashfunc identity = OK address_n →
  address_n =
    0x8000000D :: ((λ i, 2 ^ 31 + digest_word digest i mod 2 ^ 31) <$> [0; 1; 2; 3]%nat).
Proof.
  intros digest. rewrite get_address_eq. fold digest.
  destruct (negb _); [done|]. destruct (negb _); [done|]. destruct (_ <? _)%nat; [done|].
  intros [= <-]. cbn [fmap list_fmap].
  rewrite !(hardened_low_bits (digest_word _ _)) by apply digest_word_range.
  done.
Qed.

Lemma hardening_keeps_low_bits_witness :
  let identity := mkIdentity (Some "ssh") None (Some "h") None None 0 in
  let digest :=
    Toy.hashfunc (le_bytes32 0 ++ ascii_bytes (identity_to_string identity)) in
  ∃ address_n,
    _get_address Toy.hashfunc identity = OK address_n
    ∧ address_n =
        0x8000000D
        :: ((λ i, 2 ^ 31 + digest_word digest i mod 2 ^ 31) <$> [0; 1; 2; 3]%nat).
Proof.
  intros identity digest. eexists. split; [by vm_compute|].
  apply (hardening_keeps_low_bits Toy.hashfunc identity). by vm_compute.
Defined.

End AddressMore.

(** ** From a label to its canonical string and its path *)

Module LabelMore.
Import Str StrFacts Matching Label Encoding ReFacts IdentityFacts AddressFacts
  AddressMore ProtoFacts.

(** What is left of a label after the protocol: the canonical string
    without its [ssh://]. *)
Lemma canonical_of_parts p u h po pa :
  identity_to_string (set_proto "ssh" (identity_of_parts p u h po pa)) =
    "ssh://" +:+
    (from_option (λ x, x +:+ "@") "" (keep_truthy u) +:+
    (h +:+
    (from_option (λ x, ":" +:+ x) "" (keep_truthy po) +:+
    default "" pa))).
Proof.
  rewrite identity_to_string_eq.
  cbn [proto user host port path set_proto identity_of_parts].
  rewrite !getattr_keep_truthy. cbn [getattr default truthy].
  by destruct u as [[|]|], po as [[|]|].
Qed.

Lemma all_keep_truthy_pre P sep o :
  all P (from_option (λ x, x +:+ sep) "" o) = true →
  all P (from_option (λ x, x +:+ sep) "" (keep_truthy o)) = true.
Proof. by destruct o as [[|]|]. Qed.

Lemma all_keep_truthy_post P sep o :
  all P (from_option (λ x, sep +:+ x) "" o) = true →
  all P (from_option (λ x, sep +:+ x) "" (keep_truthy o)) = true.
Proof. by destruct o as [[|]|]. Qed.

(** The predicate [P] holds of the canonical rest when it holds of the
    label. *)
Lemma all_canonical_rest P p u h po pa tail :
  all P (label_text p u h po pa +:+ tail) = true →
  all P (from_option (λ x, x +:+ "@") "" (keep_truthy u) +:+
         (h +:+
         (from_option (λ x, ":" +:+ x) "" (keep_truthy po) +:+
         default "" pa))) = true.
Proof.
  unfold label_text. rewrite !all_app, !andb_true_iff.
  intros ((_ & Hu & Hh & Hpo & Hpa) & _).
  by rewrite (all_keep_truthy_pre _ _ _ Hu), Hh, (all_keep_truthy_post _ _ _ Hpo), Hpa.
Qed.

(** What [get_identity] returns: the parts of the label, with the
    protocol replaced. *)
Lemma get_identity_inv label identity :
  get_identity label = OK identity →
  ∃ p u h po pa tail,
    label = label_text p u h po pa +:+ tail
    ∧ at_end tail = true
    ∧ well_shaped p u h po pa
    ∧ identity = set_proto "ssh" (identity_of_parts p u h po pa).
Proof.
  unfold get_identity. destruct (string_to_identity label) as [id0|] eqn:E; [|done].
  intros [= <-].
  destruct (string_to_identity_inv _ _ E)
    as (p & u & h & po & pa & tail & Hlabel & Ht & _ & Hw & ->).
  by exists p, u, h, po, pa, tail.
Qed.

(** [get_identity] fails on the labels of more than one line, and on no
    other. *)
Lemma get_identity_rejects label :
  is_line label = false → get_identity label = Raise AttributeError.
Proof.
  intros H. unfold get_identity, string_to_identity.
  destruct (re_match _identity_regexp label) as [m|] eqn:E; [|done].
  apply accepted_is_line in E. congruence.
Qed.

Lemma get_identity_accepts label :
  is_line label = true → ∃ identity, get_identity label = OK identity.
Proof.
  intros [m Hm]%line_is_accepted. unfold get_identity, string_to_identity.
  rewrite Hm. eauto.
Qed.

(** X4.  The canonical string of the identity that [get_identity] returns
    always starts with [ssh://]; what follows holds no line feed, and is
    pure ASCII when the label is.  It is the label that
    [get_public_key] exports with the key. *)
Theorem canonical_label_ssh label identity :
  get_identity label = OK identity →
  ∃ rest, identity_to_string identity = "ssh://" +:+ rest
          ∧ all (mem Dot) rest = true
          ∧ (all is_ascii label = true → all is_ascii rest = true).
Proof.
  intros (p & u & h & po & pa & tail & Hlabel & _ & Hw & ->)%get_identity_inv.
  eexists. split; [apply canonical_of_parts|]. split.
  - apply (all_canonical_rest _ p u h po pa ""). rewrite app_nil_r.
    by apply label_text_dot.
  - intros Hascii. apply (all_canonical_rest _ p u h po pa tail). by rewrite <-Hlabel.
Qed.

Lemma canonical_label_ssh_witness :
  ∃ rest,
    identity_to_string
      (mkIdentity (Some "ssh") (Some "alice") (Some "git.example.com")
         (Some "22") (Some "/repo") 0) = "ssh://" +:+ rest
    ∧ all (mem Dot) rest = true
    ∧ (all is_ascii "https://alice@git.example.com:22/repo" = true →
       all is_ascii rest = true).
Proof.
  apply (canonical_label_ssh "https://alice@git.example.com:22/repo").
  by vm_compute.
Defined.

(** X5.  Every label of one line and of ASCII characters derives a path,
    provided the digest has 16 bytes or more: the seed is four zero bytes
    (the index is always 0) followed by the ASCII bytes of the canonical
    string, and the path is made of its first four words. *)
Theorem label_derives_path hashfunc label identity :
  let digest :=
    hashfunc (replicate 4 x00 ++ ascii_bytes (identity_to_string identity)) in
  get_identity label = OK identity →
  all is_ascii label = true →
  (16 ≤ length digest)%nat →
  _get_address hashfunc identity =
    OK (Z.lor 0x80000000 <$>
          [13; digest_word digest 0; digest_word digest 1;
           digest_word digest 2; digest_word digest 3]).
Proof.
  intros digest Hid Hascii Hlen.
  destruct (get_identity_inv _ _ Hid)
    as (p & u & h & po & pa & tail & Hlabel & _ & _ & Hidentity).
  assert (index identity = 0) as Hindex by by rewrite Hidentity.
  rewrite get_address_eq, Hindex. cbn [Z.leb Z.ltb Z.compare andb negb Z.pow Z.pow_pos].
  change (le_bytes32 0) with (replicate 4 x00). fold digest.
  assert (all is_ascii (identity_to_string identity) = true) as ->.
  { rewrite Hidentity, canonical_of_parts, all_app.
    rewrite (all_canonical_rest _ p u h po pa tail); [done|]. by rewrite <-Hlabel. }
  cbn [negb].
  by replace (length digest <? 16)%nat with false
    by (symmetry; apply Nat.ltb_ge; lia).
Qed.

Lemma label_derives_path_witness :
  ∃ address_n,
    _get_address Toy.hashfunc
      (mkIdentity (Some "ssh") (Some "alice") (Some "git.example.com")
         (Some "22") (Some "/repo") 0) = OK address_n
    ∧ length address_n = 5%nat.
Proof.
  eexists. split.
  - apply (label_derives_path Toy.hashfunc "https://alice@git.example.com:22/repo").
    + by vm_compute.
    + by vm_compute.
    + vm_compute. lia.
  - reflexivity.
Defined.

End LabelMore.

(** ** The two requests: what fails, what is asked of the device *)

Module ClientMore.
Import Str StrFacts Matching Label Encoding ReFacts IdentityFacts AddressFacts
  AddressMore ProtoFacts CanonFacts LabelMore BlobFacts.

Section Device.
Context {VerifyingKey : Type}.
Variable hashfunc : bytes → bytes.
Variable decompress_pubkey : bytes → string → result VerifyingKey.
Variable serialize_verifying_key : VerifyingKey → result (bytes * bytes).
Variable parse_pubkey : bytes → result (PublicKeyRecord VerifyingKey).
Variable export_public_key : VerifyingKey → string → result string.
Variable read_frame : io bytes.
Variable curve : string.
Variable get_public_node : list Z → string → result bytes.
Variable sign_identity :
  IdentityType → bytes → string → string → result SignedIdentity.

Local Abbreviation parse :=
  (_parse_ssh_blob VerifyingKey parse_pubkey read_frame).
Local Abbreviation get_key :=
  (get_public_key hashfunc VerifyingKey decompress_pubkey export_public_key
     curve get_public_node).
Local Abbreviation sign :=
  (sign_ssh_challenge VerifyingKey decompress_pubkey serialize_verifying_key
     parse_pubkey read_frame curve sign_identity).

(** X6.  A label that holds a line feed before its last character is
    rejected by both requests with [AttributeError] (the pattern does not
    match, and [groupdict] is called on [None]): whatever the challenge
    is, and before the device is asked anything. *)
Theorem multiline_label_rejected label :
  is_line label = false →
  get_key label = Raise AttributeError
  ∧ ∀ blob, sign label blob = Raise AttributeError.
Proof using Type.
  intros H%get_identity_rejects.
  split; [|intros blob]; unfold get_public_key, sign_ssh_challenge; by rewrite H.
Qed.

(** X7.  An empty challenge is not signed: it parses to the empty
    dictionary, and [msg['user']] raises [KeyError] for every label of
    one line, before the device is asked. *)
Theorem sign_empty_challenge label :
  sign label [] = if is_line label then Raise KeyError else Raise AttributeError.
Proof using Type.
  destruct (is_line label) eqn:Hline.
  - destruct (get_identity_accepts _ Hline) as [identity Hid].
    unfold sign_ssh_challenge. by rewrite Hid.
  - unfold sign_ssh_challenge. by rewrite (get_identity_rejects _ Hline).
Qed.

(** X8.  A signature is returned only at the end of one chain: the label
    is accepted, the challenge is not empty and parses, the device was
    asked to sign that challenge for that identity, with the path of the
    identity as the visual challenge; the key it answered with serializes
    to the key type and the key blob of the challenge; and its signature
    is a zero byte followed by the 64 bytes returned. *)
Theorem sign_success_chain label blob sig :
  sign label blob = OK sig →
  ∃ identity msg result verifying_key key_type parsed,
    get_identity label = OK identity
    ∧ blob ≠ []
    ∧ parse blob = OK msg
    ∧ sign_identity identity blob (getattr (path identity)) curve = OK result
    ∧ decompress_pubkey (public_key result) curve = OK verifying_key
    ∧ serialize_verifying_key verifying_key =
        OK (key_type, pk_blob VerifyingKey parsed)
    ∧ msg !! "public_key" = Some (VPublicKey VerifyingKey parsed)
    ∧ msg !! "key_type" = Some (VBytes VerifyingKey key_type)
    ∧ signature result = x00 :: sig
    ∧ length sig = 64%nat.
Proof using Type.
  unfold sign_ssh_challenge. intros H.
  destruct (get_identity label) as [identity|] eqn:Hid; [|done].
  cbn [mbind result_bind] in H.
  destruct (parse blob) as [msg|] eqn:Hparse; [|done].
  cbn [mbind result_bind] in H. unfold getitem in H.
  destruct (msg !! "user") as [user|] eqn:Huser; [|done].
  cbn [mbind result_bind] in H.
  destruct (sign_identity _ _ _ _) as [result|] eqn:Hdevice; [|done].
  cbn [mbind result_bind] in H.
  destruct (decompress_pubkey _ _) as [vk|] eqn:Hvk; [|done].
  cbn [mbind result_bind] in H.
  destruct (serialize_verifying_key vk) as [[key_type returned]|] eqn:Hser; [|done].
  cbn [mbind result_bind] in H.
  destruct (msg !! "public_key") as [[?|parsed]|] eqn:Hkey; [done| |done].
  cbn [mbind result_bind eq_blob] in H.
  destruct (bool_decide (returned = _)) eqn:Hblob; [|done].
  apply bool_decide_eq_true_1 in Hblob as ->.
  cbn [assert mbind result_bind] in H.
  destruct (msg !! "key_type") as [[expected|?]|] eqn:Htype; [|done..].
  cbn [mbind result_bind eq_bytes] in H.
  destruct (bool_decide (key_type = _)) eqn:Hkt; [|done].
  apply bool_decide_eq_true_1 in Hkt as <-.
  cbn [assert mbind result_bind] in H.
  destruct (bool_decide (length _ = _)) eqn:Hlen; [|done].
  apply bool_decide_eq_true_1 in Hlen.
  cbn [assert mbind result_bind] in H.
  destruct (bool_decide (list.take _ _ = _)) eqn:Hhead; [|done].
  apply bool_decide_eq_true_1 in Hhead.
  cbn [assert mbind result_bind] in H. injection H as <-.
  exists identity, msg, result, vk, key_type, parsed.
  repeat split; try done.
  - intros ->. cbn [_parse_ssh_blob] in Hparse. injection Hparse as <-.
    by rewrite lookup_empty in Huser.
  - destruct (signature result) as [|b l]; [done|]. simpl in Hhead.
    rewrite take_0 in Hhead. by injection Hhead as ->.
  - destruct (signature result) as [|b l]; [done|]. simpl in *.
    rewrite drop_0. lia.
Qed.

(** Two labels that differ in their protocol prefix only give the same
    identity, or are both rejected. *)
Lemma get_identity_prefix pre1 pre2 r :
  proto_prefix pre1 → proto_prefix pre2 →
  all (mem Dot) pre1 = true → all (mem Dot) pre2 = true →
  get_identity (pre1 +:+ r) = get_identity (pre2 +:+ r).
Proof using Type.
  intros Hpre1 Hpre2 Hdot1 Hdot2.
  destruct (is_line r) eqn:Hline.
  - assert (is_line (pre1 +:+ r) = true) as Hl1 by by rewrite is_line_app_dot.
    assert (is_line (pre2 +:+ r) = true) as Hl2 by by rewrite is_line_app_dot.
    pose proof (re_match_prefix_rel pre1 pre2 r Hpre1 Hpre2 Hl1 Hl2) as Hrel.
    destruct (line_is_accepted _ Hl1) as [m1 Hm1].
    destruct (line_is_accepted _ Hl2) as [m2 Hm2].
    unfold get_identity, string_to_identity. rewrite Hm1, Hm2 in *.
    simpl in Hrel. cbn [mbind result_bind]. f_equal.
    unfold set_proto, identity_type. cbn [user host port path index].
    rewrite !kwargs_lookup by (cbn; set_solver).
    by rewrite !(same_but_lookup "proto" m1 m2) by done.
  - rewrite !get_identity_rejects; [done|by rewrite is_line_app_dot..].
Qed.

(** X9.  The protocol of a label has no effect on either request: two
    labels that differ only in their protocol prefix ([p://] with no line
    feed in [p], or no prefix) give the same result of [get_public_key],
    and of [sign_ssh_challenge] on every challenge, errors included. *)
Theorem protocol_is_ignored pre1 pre2 r :
  proto_prefix pre1 → proto_prefix pre2 →
  all (mem Dot) pre1 = true → all (mem Dot) pre2 = true →
  get_key (pre1 +:+ r) = get_key (pre2 +:+ r)
  ∧ ∀ blob, sign (pre1 +:+ r) blob = sign (pre2 +:+ r) blob.
Proof using Type.
  intros Hpre1 Hpre2 Hdot1 Hdot2.
  pose proof (get_identity_prefix pre1 pre2 r Hpre1 Hpre2 Hdot1 Hdot2) as H.
  split; [|intros blob]; unfold get_public_key, sign_ssh_challenge; by rewrite H.
Qed.

(** X10.  What [get_public_key] asks and exports when it succeeds: the
    device is asked for the node at the hardened path of the digest of
    four zero bytes followed by the canonical string, which starts with
    [ssh://] whatever the protocol of the label was, and the key is
    exported under that canonical string, not under the label. *)
Theorem get_public_key_chain label out :
  get_key label = OK out →
  ∃ identity rest pubkey vk,
    let canon := "ssh://" +:+ rest in
    let digest := hashfunc (replicate 4 x00 ++ ascii_bytes canon) in
    get_identity label = OK identity
    ∧ identity_to_string identity = canon
    ∧ all is_ascii canon = true
    ∧ get_public_node
        (Z.lor 0x80000000 <$>
           [13; digest_word digest 0; digest_word digest 1;
            digest_word digest 2; digest_word digest 3]) curve = OK pubkey
    ∧ decompress_pubkey pubkey curve = OK vk
    ∧ export_public_key vk canon = OK out.
Proof using Type.
  unfold get_public_key. intros H.
  destruct (get_identity label) as [identity|] eqn:Hid; [|done].
  cbn [mbind result_bind] in H.
  destruct (get_identity_inv _ _ Hid)
    as (p & u & h & po & pa & tail & _ & _ & _ & Hidentity).
  assert (index identity = 0) as Hindex by by rewrite Hidentity.
  pose proof (canonical_of_parts p u h po pa) as Hcanon.
  rewrite <-Hidentity in Hcanon.
  rewrite get_address_eq, Hindex in H.
  change (le_bytes32 0) with (replicate 4 x00) in H.
  change (negb ((0 <=? 0) && (0 <? 2 ^ 32))) with false in H. cbv iota in H.
  destruct (all is_ascii (identity_to_string identity)) eqn:Hascii; [|done].
  cbn [negb] in H.
  destruct (_ <? _)%nat; [done|]. cbn [mbind result_bind] in H.
  destruct (get_public_node _ _) as [pubkey|] eqn:Hnode; [|done].
  cbn [mbind result_bind] in H.
  destruct (decompress_pubkey _ _) as [vk|] eqn:Hvk; [|done].
  cbn [mbind result_bind] in H.
  eexists identity, _, pubkey, vk. cbn zeta.
  rewrite <-Hcanon. by repeat split.
Qed.

End Device.

Lemma multiline_label_rejected_witness :
  get_public_key Toy.hashfunc Toy.VerifyingKey Toy.decompress_pubkey
    ToyDevice.export_public_key "ed25519" ToyDevice.get_public_node
    (String "a" (String LF "b")) = Raise AttributeError
  ∧ ∀ blob,
      sign_ssh_challenge Toy.VerifyingKey Toy.decompress_pubkey
        Toy.serialize_verifying_key Toy.parse_pubkey Toy.read_frame "ed25519"
        (Toy.sign_identity (mkSigned Toy.key Toy.well_formed))
        (String "a" (String LF "b")) blob = Raise AttributeError.
Proof.
  apply (multiline_label_rejected Toy.hashfunc Toy.decompress_pubkey
           Toy.serialize_verifying_key Toy.parse_pubkey
           ToyDevice.export_public_key Toy.read_frame "ed25519"
           ToyDevice.get_public_node
           (Toy.sign_identity (mkSigned Toy.key Toy.well_formed))).
  by vm_compute.
Defined.

Lemma sign_success_chain_witness :
  ∃ identity msg result verifying_key key_type parsed,
    get_identity Toy.label = OK identity
    ∧ Toy.challenge ≠ []
    ∧ _parse_ssh_blob Toy.VerifyingKey Toy.parse_pubkey Toy.read_frame
        Toy.challenge = OK msg
    ∧ Toy.sign_identity (mkSigned Toy.key Toy.well_formed) identity
        Toy.challenge (getattr (path identity)) "ed25519" = OK result
    ∧ Toy.decompress_pubkey (public_key result) "ed25519" = OK verifying_key
    ∧ Toy.serialize_verifying_key verifying_key =
        OK (key_type, pk_blob Toy.VerifyingKey parsed)
    ∧ msg !! "public_key" = Some (VPublicKey Toy.VerifyingKey parsed)
    ∧ msg !! "key_type" = Some (VBytes Toy.VerifyingKey key_type)
    ∧ signature result = x00 :: replicate 64 x01
    ∧ length (replicate 64 x01) = 64%nat.
Proof.
  apply (sign_success_chain Toy.decompress_pubkey Toy.serialize_verifying_key
           Toy.parse_pubkey Toy.read_frame "ed25519"
           (Toy.sign_identity (mkSigned Toy.key Toy.well_formed))
           Toy.label Toy.challenge).
  by vm_compute.
Defined.

Lemma protocol_is_ignored_witness :
  get_public_key Toy.hashfunc Toy.VerifyingKey Toy.decompress_pubkey
    ToyDevice.export_public_key "ed25519" ToyDevice.get_public_node
    "https://alice@git.example.com:22/repo"
  = get_public_key Toy.hashfunc Toy.VerifyingKey Toy.decompress_pubkey
      ToyDevice.export_public_key "ed25519" ToyDevice.get_public_node
      "alice@git.example.com:22/repo"
  ∧ ∀ blob,
      sign_ssh_challenge Toy.VerifyingKey Toy.decompress_pubkey
        Toy.serialize_verifying_key Toy.parse_pubkey Toy.read_frame "ed25519"
        (Toy.sign_identity (mkSigned Toy.key Toy.well_formed))
        "https://alice@git.example.com:22/repo" blob
      = sign_ssh_challenge Toy.VerifyingKey Toy.decompress_pubkey
          Toy.serialize_verifying_key Toy.parse_pubkey Toy.read_frame "ed25519"
          (Toy.sign_identity (mkSigned Toy.key Toy.well_formed))
          "alice@git.example.com:22/repo" blob.
Proof.
  apply (protocol_is_ignored Toy.hashfunc Toy.decompress_pubkey
           Toy.serialize_verifying_key Toy.parse_pubkey
           ToyDevice.export_public_key Toy.read_frame "ed25519"
           ToyDevice.get_public_node
           (Toy.sign_identity (mkSigned Toy.key Toy.well_formed))
           "https://" "" "alice@git.example.com:22/repo").
  - exact (with_proto "https").
  - exact no_proto.
  - by vm_compute.
  - by vm_compute.
Defined.

Lemma get_public_key_chain_witness :
  ∃ identity rest pubkey vk,
    let canon := "ssh://" +:+ rest in
    let digest := Toy.hashfunc (replicate 4 x00 ++ ascii_bytes canon) in
    get_identity "https://alice@git.example.com:22/repo" = OK identity
    ∧ identity_to_string identity = canon
    ∧ all is_ascii canon = true
    ∧ ToyDevice.get_public_node
        (Z.lor 0x80000000 <$>
           [13; digest_word digest 0; digest_word digest 1;
            digest_word digest 2; digest_word digest 3]) "ed25519" = OK pubkey
    ∧ Toy.decompress_pubkey pubkey "ed25519" = OK vk
    ∧ ToyDevice.export_public_key vk canon =
        OK "ssh-ed25519 BwcHBw== ssh://alice@git.example.com:22/repo".
Proof.
  apply (get_public_key_chain Toy.hashfunc Toy.decompress_pubkey
           ToyDevice.export_public_key "ed25519" ToyDevice.get_public_node
           "https://alice@git.example.com:22/repo").
  by vm_compute.
Defined.

End ClientMore.

(** ** From an identity to its canonical string and back *)

Module PlainFacts.
Import Str StrFacts Matching Label ReFacts IdentityFacts ProtoFacts CanonFacts
  Canonical.

(** *** The two stars *)

Lemma star_greedy_None {A} p s (k : string → option A) :
  (∀ w t, s = w +:+ t → k t = None) → star_greedy p s k = None.
Proof.
  induction s as [|a s IH]; intros H.
  - simpl. by apply (H "" "").
  - simpl. rewrite IH.
    + rewrite (H "" (String a s)) by done. by destruct (p a).
    + intros w t ->. by apply (H (String a w) t).
Qed.

Lemma star_greedy_all {A} p w (k : string → option A) m :
  all p w = true → k "" = Some m → star_greedy p w k = Some m.
Proof.
  intros Hw Hk. rewrite <-(app_nil_r w). by apply star_greedy_skip.
Qed.

Lemma star_lazy_here {A} p s (k : string → option A) m :
  k s = Some m → star_lazy p s k = Some m.
Proof. intros H. destruct s; simpl; by rewrite H. Qed.

Lemma star_lazy_skip {A} p w t (k : string → option A) :
  all p w = true →
  (∀ w1 a w2, w = w1 +:+ String a w2 → k (String a (w2 +:+ t)) = None) →
  star_lazy p (w +:+ t) k = star_lazy p t k.
Proof.
  induction w as [|a w IH]; intros Hw H; [done|].
  cbn [all] in Hw. apply andb_true_iff in Hw as [Ha Hw].
  rewrite app_cons. cbn [star_lazy].
  rewrite (H "" a w) by done. rewrite Ha.
  apply IH; [done|]. intros w1 b w2 ->. by apply (H (String a w1) b w2).
Qed.

Lemma consumed_nil w : consumed w "" = w.
Proof. by rewrite <-(app_nil_r w) at 1; rewrite consumed_app. Qed.

(** *** Characters *)

Lemma all_impl (p q : ascii → bool) s :
  (∀ a, p a = true → q a = true) → all p s = true → all q s = true.
Proof.
  intros Hpq. induction s as [|a s IH]; [done|]. cbn [all].
  intros [Ha Hs]%andb_true_iff. by rewrite (Hpq a Ha), (IH Hs).
Qed.

Lemma lacks_app c s t : lacks c (s +:+ t) = lacks c s && lacks c t.
Proof. apply all_app. Qed.

Lemma is_word_neq a c : is_word a = true → is_word c = false → Ascii.eqb a c = false.
Proof.
  intros Ha Hc. destruct (Ascii.eqb_spec a c) as [->|]; [congruence|done].
Qed.

Lemma host_char_inv a :
  host_char a = true →
  Ascii.eqb a LF = false ∧ Ascii.eqb a ":" = false
  ∧ Ascii.eqb a "/" = false ∧ Ascii.eqb a "@" = false.
Proof.
  unfold host_char. rewrite !andb_true_iff, !negb_true_iff. tauto.
Qed.

Lemma strip_prefix_cons c p b s :
  strip_prefix (String c p) (String b s) =
    if Ascii.eqb b c then strip_prefix p s else None.
Proof. cbn [strip_prefix]. by rewrite Ascii.eqb_sym. Qed.

(** A string without the character [c] does not start with it. *)
Lemma strip_prefix_lacks c p s :
  lacks c s = true → strip_prefix (String c p) s = None.
Proof.
  destruct s as [|b s]; [done|]. rewrite strip_prefix_cons.
  unfold lacks. cbn [all]. intros [Hb _]%andb_true_iff.
  apply negb_true_iff in Hb. by rewrite Hb.
Qed.

(** *** No protocol separator *)

Lemma sep_free_eq s :
  sep_free s =
    match strip_prefix "://" s with
    | Some _ => false
    | None => match s with EmptyString => true | String _ s' => sep_free s' end
    end.
Proof. by destruct s. Qed.

Lemma sep_free_suffix w t :
  sep_free (w +:+ t) = true → strip_prefix "://" t = None ∧ sep_free t = true.
Proof.
  induction w as [|a w IH].
  - rewrite app_nil_l. intros H. split; [|done].
    rewrite sep_free_eq in H. by destruct (strip_prefix "://" t).
  - rewrite app_cons, sep_free_eq.
    destruct (strip_prefix "://" (String a (w +:+ t))); [done|]. apply IH.
Qed.

Lemma sep_free_lacks w t :
  lacks ":" w = true → sep_free t = true → sep_free (w +:+ t) = true.
Proof.
  intros Hw Ht. induction w as [|a w IH]; [done|].
  unfold lacks in Hw. cbn [all] in Hw. apply andb_true_iff in Hw as [Ha Hw].
  apply negb_true_iff in Ha.
  rewrite app_cons, sep_free_eq, strip_prefix_cons, Ha. by apply IH.
Qed.

(** The separator needs a slash after the colon. *)
Lemma strip_sep_no_slash a b s :
  Ascii.eqb b "/" = false → strip_prefix "://" (String a (String b s)) = None.
Proof.
  intros Hb. change "://" with (String ":" (String "/" "/")).
  rewrite strip_prefix_cons. destruct (Ascii.eqb a ":"); [|done].
  by rewrite strip_prefix_cons, Hb.
Qed.

Lemma sep_free_no_slash w b t :
  lacks "/" w = true →
  Ascii.eqb b "/" = false →
  sep_free (String b t) = true →
  sep_free (w +:+ String b t) = true.
Proof.
  intros Hw Hb Ht. induction w as [|a w IH]; [done|].
  unfold lacks in Hw. cbn [all] in Hw. apply andb_true_iff in Hw as [Ha Hw].
  apply negb_true_iff in Ha.
  rewrite app_cons, sep_free_eq.
  assert (strip_prefix "://" (String a (w +:+ String b t)) = None) as ->.
  { destruct w as [|a' w].
    - rewrite app_nil_l. by apply strip_sep_no_slash.
    - rewrite app_cons. apply strip_sep_no_slash.
      cbn [all] in Hw. apply andb_true_iff in Hw as [Ha' _].
      by apply negb_true_iff in Ha'. }
  by apply IH.
Qed.

(** *** The pattern, one part after the other *)

Lemma run_opt r l s c k :
  run (Opt r) l s c k =
    match run r l s c k with Some m => Some m | None => k s c end.
Proof. reflexivity. Qed.

Lemma run_lit x l s c k :
  run (Lit x) l s c k =
    match strip_prefix x s with Some s' => k s' c | None => None end.
Proof. reflexivity. Qed.

Lemma run_group_greedy name cs l s c k :
  run (Group name (Star cs true)) l s c k =
    star_greedy (mem cs) s (λ s', k s' (<[name := consumed s s']> c)).
Proof. reflexivity. Qed.

Lemma run_eos l s c : run Eos l s c accept = if at_end s then Some c else None.
Proof. reflexivity. Qed.

Local Abbreviation path_end :=
  (Seq (Opt (Group "path" (Seq (Lit "/") (Star Dot true)))) Eos).
Local Abbreviation port_end :=
  (Seq (Opt (Seq (Lit ":") (Group "port" (Star Word true)))) path_end).

(** The shape of the parts of a canonical string *)
Local Abbreviation path_shape pa :=
  (opt_all (λ x, ∃ y, x = "/" +:+ y ∧ all (mem Dot) y = true
                      ∧ lacks "@" y = true ∧ lacks ":" y = true) pa).
Local Abbreviation port_shape po :=
  (opt_all (λ x, x ≠ "" ∧ all is_word x = true) po).
Local Abbreviation user_shape u :=
  (opt_all (λ x, all (mem Dot) x = true ∧ lacks "/" x = true) u).

Lemma run_path l pa c :
  path_shape pa →
  run path_end l (default "" pa) c accept = Some (opt_insert "path" pa c).
Proof.
  intros Hpa. destruct pa as [x|]; [|reflexivity].
  destruct (Hpa x eq_refl) as (y & -> & Hy & _). cbn [from_option id opt_insert].
  rewrite run_seq, run_opt.
  assert (run (Group "path" (Seq (Lit "/") (Star Dot true))) l ("/" +:+ y) c
            (λ s' c', run Eos l s' c' accept) = Some (<["path" := "/" +:+ y]> c))
    as ->; [|done].
  cbn [run]. rewrite (proj2 (strip_prefix_Some "/" ("/" +:+ y) y) eq_refl).
  apply star_greedy_all; [done|]. cbn [at_end]. by rewrite consumed_nil.
Qed.

(** Where the port ends: at the end, or at the slash of the path *)
Lemma path_stops_port {A} pa (k : string → option A) :
  path_shape pa →
  star_greedy (mem Word) (default "" pa) k = k (default "" pa).
Proof.
  intros Hpa. destruct pa as [x|]; [|done].
  by destruct (Hpa x eq_refl) as (y & -> & _).
Qed.

Lemma path_no_colon pa :
  path_shape pa → strip_prefix ":" (default "" pa) = None.
Proof.
  intros Hpa. destruct pa as [x|]; [|done].
  by destruct (Hpa x eq_refl) as (y & -> & _).
Qed.

Lemma run_port l po pa c :
  port_shape po →
  path_shape pa →
  run port_end l (from_option (λ x, ":" +:+ x) "" po +:+ default "" pa) c accept
  = Some (opt_insert "path" pa (opt_insert "port" po c)).
Proof.
  intros Hpo Hpa. rewrite run_seq, run_opt. destruct po as [x|].
  - destruct (Hpo x eq_refl) as [_ Hx]. cbn [from_option opt_insert].
    rewrite app_assoc, run_seq, run_lit.
    rewrite (proj2 (strip_prefix_Some ":" (":" +:+ (x +:+ default "" pa)) _) eq_refl).
    rewrite run_group_greedy.
    rewrite (star_greedy_skip _ x _ _
               (opt_insert "path" pa (<["port" := x]> c)) Hx); [done|].
    rewrite path_stops_port by done. rewrite consumed_app. by apply run_path.
  - cbn [from_option opt_insert]. rewrite app_nil_l, run_seq, run_lit.
    rewrite path_no_colon by done.
    by apply run_path.
Qed.

(** A character of the host is not where the host ends. *)
Lemma host_rest_None l a s c :
  host_char a = true → run port_end l (String a s) c accept = None.
Proof.
  intros (Hlf & Hcolon & Hslash & _)%host_char_inv.
  rewrite run_seq, run_opt, run_seq, run_lit, strip_prefix_cons, Hcolon.
  rewrite run_seq, run_opt. cbn [run].
  rewrite strip_prefix_cons, Hslash. cbn [at_end]. rewrite Hlf. by destruct s.
Qed.

Lemma host_char_dot a : host_char a = true → mem Dot a = true.
Proof. intros (Hlf & _)%host_char_inv. cbn [mem]. by rewrite Hlf. Qed.

Lemma run_host l h po pa c :
  all host_char h = true →
  port_shape po →
  path_shape pa →
  run identity_host l
    (h +:+ (from_option (λ x, ":" +:+ x) "" po +:+ default "" pa)) c accept
  = Some (opt_insert "path" pa (opt_insert "port" po (<["host" := h]> c))).
Proof.
  intros Hh Hpo Hpa. unfold identity_host. rewrite run_seq, run_group_lazy.
  rewrite star_lazy_skip.
  - apply star_lazy_here. rewrite consumed_app. by apply run_port.
  - revert Hh. apply all_impl, host_char_dot.
  - intros w1 a w2 ->. apply host_rest_None.
    rewrite all_app in Hh. apply andb_true_iff in Hh as [_ Hh].
    cbn [all] in Hh. by apply andb_true_iff in Hh as [? _].
Qed.

(** What follows the user holds no [@]. *)
Lemma host_lacks_at h po pa :
  all host_char h = true →
  port_shape po →
  path_shape pa →
  lacks "@" (h +:+ (from_option (λ x, ":" +:+ x) "" po +:+ default "" pa)) = true.
Proof.
  intros Hh Hpo Hpa. rewrite !lacks_app.
  assert (lacks "@" h = true) as ->.
  { revert Hh. apply all_impl. intros a (_ & _ & _ & Hat)%host_char_inv.
    by rewrite Hat. }
  assert (lacks "@" (from_option (λ x, ":" +:+ x) "" po) = true) as ->.
  { destruct po as [x|]; [|done]. destruct (Hpo x eq_refl) as [_ Hx].
    cbn [from_option]. rewrite lacks_app. cbn [andb].
    change (lacks "@" ":") with true. cbn [andb].
    revert Hx. apply all_impl. intros a Ha. by rewrite (is_word_neq a "@"). }
  destruct pa as [x|]; [|done].
  destruct (Hpa x eq_refl) as (y & -> & _ & Hy & _).
  cbn [from_option id]. by rewrite lacks_app, Hy.
Qed.

Lemma no_later_user l start c s :
  lacks "@" s = true → star_greedy (mem Dot) s (after_user l start c) = None.
Proof.
  intros Hs. apply star_greedy_None. intros w t ->.
  rewrite lacks_app in Hs. apply andb_true_iff in Hs as [_ Ht].
  unfold after_user. by rewrite strip_prefix_lacks.
Qed.

Lemma run_tail l u h po pa c :
  user_shape u →
  all host_char h = true →
  port_shape po →
  path_shape pa →
  run identity_tail l
    (from_option (λ x, x +:+ "@") "" u +:+
     (h +:+ (from_option (λ x, ":" +:+ x) "" po +:+ default "" pa))) c accept
  = Some (opt_insert "path" pa (opt_insert "port" po (<["host" := h]>
            (opt_insert "user" u c)))).
Proof.
  intros Hu Hh Hpo Hpa. rewrite tail_unfold.
  pose proof (host_lacks_at h po pa Hh Hpo Hpa) as Hat.
  set (y := h +:+ (from_option (λ x, ":" +:+ x) "" po +:+ default "" pa)) in *.
  destruct u as [x|]; cbn [from_option opt_insert].
  - destruct (Hu x eq_refl) as [Hx _].
    rewrite app_assoc. change ("@" +:+ y) with (String "@" y).
    rewrite (star_greedy_skip _ x _ _
               (opt_insert "path" pa (opt_insert "port" po (<["host" := h]>
                  (<["user" := x]> c)))) Hx); [done|].
    cbn [star_greedy]. change (mem Dot "@") with true. cbv iota.
    rewrite no_later_user by done.
    unfold after_user.
    rewrite (proj2 (strip_prefix_Some "@" (String "@" y) y) eq_refl).
    rewrite consumed_app. by apply run_host.
  - rewrite app_nil_l, no_later_user by done. by apply run_host.
Qed.

(** What follows the protocol holds no [://]. *)
Lemma tail_sep_free u h po pa :
  user_shape u →
  all host_char h = true →
  port_shape po →
  path_shape pa →
  sep_free (from_option (λ x, x +:+ "@") "" u +:+
     (h +:+ (from_option (λ x, ":" +:+ x) "" po +:+ default "" pa))) = true.
Proof.
  intros Hu Hh Hpo Hpa.
  assert (sep_free (default "" pa) = true) as Hsep_pa.
  { rewrite <-(app_nil_r (default "" pa)). apply sep_free_lacks; [|done].
    destruct pa as [x|]; [|done].
    destruct (Hpa x eq_refl) as (y & -> & _ & _ & Hy).
    cbn [from_option id]. by rewrite lacks_app, Hy. }
  assert (sep_free (from_option (λ x, ":" +:+ x) "" po +:+ default "" pa) = true)
    as Hsep_po.
  { destruct po as [x|]; [|done]. destruct (Hpo x eq_refl) as [Hne Hx].
    cbn [from_option]. rewrite app_assoc.
    change (":" +:+ (x +:+ default "" pa)) with (String ":" (x +:+ default "" pa)).
    assert (lacks ":" x = true) as Hcolon.
    { revert Hx. apply all_impl. intros a Ha. by rewrite (is_word_neq a ":"). }
    rewrite sep_free_eq.
    destruct x as [|a x]; [done|]. rewrite app_cons.
    rewrite strip_sep_no_slash.
    - rewrite <-app_cons. by apply sep_free_lacks.
    - cbn [all] in Hx. apply andb_true_iff in Hx as [Ha _].
      by apply is_word_neq. }
  assert (sep_free (h +:+ (from_option (λ x, ":" +:+ x) "" po +:+ default "" pa))
          = true) as Hsep_h.
  { apply sep_free_lacks; [|done]. revert Hh. apply all_impl.
    intros a (_ & Hcolon & _)%host_char_inv. by rewrite Hcolon. }
  destruct u as [x|]; [|done]. destruct (Hu x eq_refl) as [_ Hx].
  cbn [from_option]. rewrite app_assoc.
  change ("@" +:+ ?y) with (String "@" y).
  apply sep_free_no_slash; [done..|].
  rewrite sep_free_eq. by change "://" with (String ":" "//"); rewrite strip_prefix_cons.
Qed.

(** The parts of a canonical string are the groups of its match. *)
Lemma re_match_parts p u h po pa :
  opt_all (λ x, all (mem Dot) x = true) p →
  user_shape u →
  all host_char h = true →
  port_shape po →
  path_shape pa →
  re_match _identity_regexp (label_text p u h po pa)
  = Some (label_groups p u h po pa).
Proof.
  intros Hp Hu Hh Hpo Hpa. unfold label_text.
  pose proof (tail_sep_free u h po pa Hu Hh Hpo Hpa) as Hsep.
  set (r := from_option (λ x, x +:+ "@") "" u +:+
            (h +:+ (from_option (λ x, ":" +:+ x) "" po +:+ default "" pa))) in *.
  assert (is_line (from_option (λ x, x +:+ "://") "" p +:+ r) = true) as Hline.
  { rewrite <-(app_nil_r (_ +:+ r)). apply is_line_join; [|done].
    apply (label_text_dot p u h po pa). repeat split.
    - done.
    - intros x Hx. by destruct (Hu x Hx).
    - revert Hh. apply all_impl, host_char_dot.
    - intros x Hx. by destruct (Hpo x Hx).
    - intros x Hx. destruct (Hpa x Hx) as (y & -> & Hy & _). eauto. }
  rewrite (re_match_proto p r Hline).
  rewrite star_greedy_None.
  - unfold r. by rewrite run_tail.
  - intros w t Hr. rewrite Hr in Hsep. apply sep_free_suffix in Hsep as [Ht _].
    unfold after_proto. by rewrite Ht.
Qed.

Lemma is_ascii_word_word a : is_ascii_word a = true → is_word a = true.
Proof.
  unfold is_ascii_word, is_word, is_alnum.
  by destruct (is_alpha a), (is_digit a), (Ascii.eqb a "_"), (is_latin1_alnum a).
Qed.

Lemma field_ok_inv ok field :
  field_ok ok field = true →
  opt_all (λ x, x ≠ "" ∧ ok x = true) field ∧ keep_truthy field = field.
Proof.
  destruct field as [[|a x]|]; [done| |done].
  cbn [field_ok truthy andb keep_truthy]. intros H. split; [|done].
  by intros ? [= <-].
Qed.

(** The canonical string of a plain identity is made of its fields. *)
Lemma plain_label_text p u h po pa i :
  plain (mkIdentity p u h po pa i) = true →
  identity_to_string (mkIdentity p u h po pa i) = label_text p u (default "" h) po pa.
Proof.
  unfold plain. cbn [proto user host port path index]. rewrite !andb_true_iff.
  intros (((((Hp%field_ok_inv & Hu%field_ok_inv) & _) & Hpo%field_ok_inv)
           & Hpa%field_ok_inv) & _).
  rewrite identity_to_string_eq. cbn [proto user host port path getattr].
  unfold label_text.
  destruct p as [[|]|], u as [[|]|], po as [[|]|], pa as [[|]|];
    try reflexivity; exfalso;
    first [by destruct Hp as [Hp _]; destruct (Hp _ eq_refl)
          |by destruct Hu as [Hu _]; destruct (Hu _ eq_refl)
          |by destruct Hpo as [Hpo _]; destruct (Hpo _ eq_refl)
          |by destruct Hpa as [Hpa _]; destruct (Hpa _ eq_refl)].
Qed.

Lemma reparse_plain identity :
  plain identity = true →
  string_to_identity (identity_to_string identity) = OK identity.
Proof.
  destruct identity as [p u h po pa i]. intros Hplain.
  rewrite (plain_label_text _ _ _ _ _ _ Hplain).
  unfold plain in Hplain. cbn [proto user host port path index] in Hplain.
  rewrite !andb_true_iff in Hplain.
  destruct Hplain as (((((Hp%field_ok_inv & Hu%field_ok_inv) & Hh%field_ok_inv)
                        & Hpo%field_ok_inv) & Hpa%field_ok_inv) & Hi%Z.eqb_eq).
  destruct Hp as [Hp Kp], Hu as [Hu Ku], Hh as [Hh Kh], Hpo as [Hpo Kpo],
    Hpa as [Hpa Kpa].
  rewrite (string_to_identity_parts _ p u (default "" h) po pa).
  - unfold identity_of_parts. rewrite Kp, Ku, Kpo, Kpa, Hi. f_equal. f_equal.
    by destruct h as [[|]|].
  - apply re_match_parts.
    + intros x Hx. by destruct (Hp x Hx).
    + intros x Hx. destruct (Hu x Hx) as [_ [??]%andb_true_iff]. done.
    + destruct h as [x|]; [|done]. by destruct (Hh x eq_refl).
    + intros x Hx. destruct (Hpo x Hx) as [Hne Hword]. split; [done|].
      revert Hword. apply all_impl, is_ascii_word_word.
    + intros x Hx. destruct (Hpa x Hx) as [_ Hy].
      destruct x as [|a y]; [done|].
      destruct (Ascii.eqb_spec a "/") as [->|Hne].
      * apply andb_true_iff in Hy as [[??]%andb_true_iff ?]. by exists y.
      * exfalso. revert Hy Hne. clear.
        destruct a as [[] [] [] [] [] [] [] []]; try done.
Qed.

(** X11.  The canonical string of a plain identity (no field empty or
    with a line feed, no slash in the user, no colon, slash or [@] in the
    host, a port of word characters, a path that starts with a slash and
    holds no colon and no [@], index 0) parses back to that identity.
    Hence two plain identities with the same canonical string are the
    same identity. *)
Theorem plain_identity_round_trip identity :
  plain identity = true →
  string_to_identity (identity_to_string identity) = OK identity
  ∧ ∀ other, plain other = true →
      identity_to_string other = identity_to_string identity →
      other = identity.
Proof.
  intros H. split; [by apply reparse_plain|].
  intros other Hother Heq. apply reparse_plain in Hother.
  rewrite Heq, (reparse_plain _ H) in Hother. by injection Hother.
Qed.

Lemma plain_identity_round_trip_witness :
  let identity :=
    mkIdentity (Some "ssh") (Some "alice") (Some "git.example.com")
      (Some "22") (Some "/repo") 0 in
  string_to_identity (identity_to_string identity) = OK identity
  ∧ ∀ other, plain other = true →
      identity_to_string other = identity_to_string identity →
      other = identity.
Proof.
  intros identity. apply (plain_identity_round_trip identity). by vm_compute.
Defined.

End PlainFacts.

(** ** What a parsed identity looks like *)

Module IdentityMore.
Import Str StrFacts Matching Label ReFacts IdentityFacts ProtoFacts CanonFacts.

Lemma keep_truthy_not_empty o : keep_truthy o ≠ Some "".
Proof. by destruct o as [[|]|]. Qed.

Lemma keep_truthy_all (P : string → Prop) o :
  opt_all P o → opt_all P (keep_truthy o).
Proof. destruct o as [[|]|]; [done| |done]. intros H x [= <-]. by apply H. Qed.

(** X12.  In an identity that [string_to_identity] returns, the index is
    0, no field is the empty string (an empty group is left unset), no
    field holds a line feed, and the path starts with a slash. *)
Theorem parsed_identity_shape s identity :
  string_to_identity s = OK identity →
  let fields := [proto identity; user identity; host identity;
                 port identity; path identity] in
  index identity = 0
  ∧ Forall (λ field, field ≠ Some "") fields
  ∧ Forall (opt_all (λ x, all (mem Dot) x = true)) fields
  ∧ opt_all (λ x, ∃ y, x = "/" +:+ y) (path identity).
Proof.
  intros (p & u & h & po & pa & tail & _ & _ & _ & Hw & ->)%string_to_identity_inv.
  destruct Hw as (Hp & Hu & Hh & Hpo & Hpa).
  cbn [identity_of_parts proto user host port path index].
  split; [done|]. split; [|split].
  - repeat constructor; apply keep_truthy_not_empty.
  - repeat constructor; apply keep_truthy_all; try done.
    + by intros x [= <-].
    + intros x Hx. by apply all_word_dot, Hpo.
    + intros x Hx. destruct (Hpa x Hx) as (y & -> & Hy). by rewrite all_app, Hy.
  - apply keep_truthy_all. intros x Hx. destruct (Hpa x Hx) as (y & -> & _). eauto.
Qed.

Lemma parsed_identity_shape_witness :
  let identity := mkIdentity None (Some "alice") (Some "host") None (Some "/") 0 in
  let fields := [proto identity; user identity; host identity;
                 port identity; path identity] in
  index identity = 0
  ∧ Forall (λ field, field ≠ Some "") fields
  ∧ Forall (opt_all (λ x, all (mem Dot) x = true)) fields
  ∧ opt_all (λ x, ∃ y, x = "/" +:+ y) (path identity).
Proof.
  apply (parsed_identity_shape "://alice@host:/"). by vm_compute.
Defined.

(** X13.  A line feed at the end of a label is ignored: the label with
    and without it give the same identity. *)
Theorem trailing_line_feed_ignored x :
  all (mem Dot) x = true →
  string_to_identity (x +:+ lf) = string_to_identity x
  ∧ get_identity (x +:+ lf) = get_identity x.
Proof.
  intros Hx. unfold get_identity, string_to_identity. by rewrite re_match_LF.
Qed.

Lemma trailing_line_feed_ignored_witness :
  string_to_identity ("alice@host:22" +:+ lf) = string_to_identity "alice@host:22"
  ∧ get_identity ("alice@host:22" +:+ lf) = get_identity "alice@host:22".
Proof.
  apply (trailing_line_feed_ignored "alice@host:22"). by vm_compute.
Defined.

End IdentityMore.

(** ** Challenge blobs: what a well-formed one parses to *)

Module BlobMore.
Import Encoding BlobFacts FrameFacts.

(** A frame with its header is read back, and nothing more. *)
Lemma read_frame_framed width size_of header payload rest :
  framed width size_of header payload →
  Util.read_frame width size_of (header ++ payload ++ rest) = OK (payload, rest).
Proof.
  intros [Hwidth Hsize]. unfold Util.read_frame, Util.recv, mbind, io_bind.
  rewrite length_app, Hwidth.
  replace (width <=? width + length (payload ++ rest))%nat with true
    by (symmetry; apply Nat.leb_le; lia).
  rewrite <-Hwidth, take_app_length, drop_app_length, Hsize, length_app.
  replace (length payload <=? length payload + length rest)%nat with true
    by (symmetry; apply Nat.leb_le; lia).
  by rewrite take_app_length, drop_app_length.
Qed.

Section Layout.
Context {VerifyingKey : Type}.
Variable parse_pubkey : bytes → result (PublicKeyRecord VerifyingKey).
Variable read_frame : io bytes.

Local Abbreviation parse := (_parse_ssh_blob VerifyingKey parse_pubkey read_frame).

Ltac next_frame Hread :=
  unfold mbind at 1, io_bind at 1;
  rewrite Hread
    by (unfold Layout.frames; repeat constructor).

(** X14.  A challenge laid out as six frames and two reserved bytes
    parses to the six payloads, whatever the reserved bytes are; the
    key is parsed before the end of the input is checked, so that a
    failure of [parse_pubkey] is what is raised even when bytes are left
    over, and left-over bytes are an [AssertionError] otherwise. *)
Theorem parse_layout (b : Layout.blob) (extra : bytes) :
  (∀ f rest, f ∈ Layout.frames b →
     read_frame (Layout.frame_bytes f ++ rest) = OK (f.2, rest)) →
  parse (Layout.encode b ++ extra) =
    (parsed ← parse_pubkey (Layout.public_key b).2;
     _ ← assert (bool_decide (extra = []));
     mret (Layout.fields b parsed)).
Proof using Type.
  intros Hread. unfold _parse_ssh_blob, Layout.encode.
  rewrite <-!app_assoc.
  destruct (Layout.frame_bytes (Layout.nonce b) ++ _) as [|x l] eqn:E.
  { by apply app_eq_nil in E as [_ E]. }
  rewrite <-E. clear E x l.
  unfold mbind at 1, io_bind at 1, mbind at 1, io_bind at 1.
  rewrite Hread by (unfold Layout.frames; repeat constructor).
  unfold mbind at 1, io_bind at 1, read at 1. cbn [app drop]. rewrite drop_0.
  next_frame Hread. next_frame Hread. next_frame Hread.
  unfold mbind at 1, io_bind at 1, read at 1. cbn [app drop]. rewrite drop_0.
  next_frame Hread. next_frame Hread.
  unfold mbind at 1, io_bind at 1, lift at 1.
  destruct (parse_pubkey _) as [parsed|e]; [|done].
  cbn [mbind result_bind].
  unfold mbind, io_bind, read_all, lift, mret, io_ret.
  by destruct (bool_decide (extra = [])).
Qed.

(** X15.  The dictionary of a parsed challenge holds all of the six
    fields or none: it is empty for the empty input only, and never
    partly filled. *)
Theorem parse_keys data msg :
  _parse_ssh_blob VerifyingKey parse_pubkey read_frame data = OK msg →
  dom msg =
    if bool_decide (data = []) then ∅
    else list_to_set ["nonce"; "user"; "conn"; "auth"; "key_type"; "public_key"].
Proof using Type.
  intros H. destruct (decide (data = [])) as [->|Hne].
  - cbn [_parse_ssh_blob] in H. injection H as <-. by rewrite dom_empty_L.
  - rewrite bool_decide_eq_false_2 by done.
    destruct (parse_fields _ _ _ _ Hne H)
      as (nonce & user & conn & auth & key_type & parsed & ->).
    rewrite !dom_insert_L, dom_empty_L. cbn [list_to_set foldr]. set_solver.
Qed.

End Layout.

Lemma parse_layout_witness :
  _parse_ssh_blob Toy.VerifyingKey Toy.parse_pubkey Toy.read_frame
    (Layout.encode ToyDevice.challenge ++ [])
  = (parsed ← Toy.parse_pubkey Toy.key;
     _ ← assert (bool_decide (@nil byte = []));
     mret (Layout.fields ToyDevice.challenge parsed)).
Proof.
  apply (parse_layout Toy.parse_pubkey Toy.read_frame ToyDevice.challenge []).
  intros f rest Hin. unfold Toy.read_frame, Layout.frame_bytes.
  rewrite <-app_assoc. apply read_frame_framed.
  unfold Layout.frames in Hin.
  repeat (apply elem_of_cons in Hin as [->|Hin]);
    [by vm_compute..|by apply elem_of_nil in Hin].
Defined.

Lemma parse_keys_witness :
  ∃ msg : gmap string (value Toy.VerifyingKey),
    _parse_ssh_blob Toy.VerifyingKey Toy.parse_pubkey Toy.read_frame
      Toy.challenge = OK msg
    ∧ dom msg =
        list_to_set ["nonce"; "user"; "conn"; "auth"; "key_type"; "public_key"].
Proof.
  eexists. split; [by vm_compute|].
  apply (parse_keys Toy.parse_pubkey Toy.read_frame Toy.challenge).
  by vm_compute.
Defined.

End BlobMore.
